(** * Chunking utilities (LAB-2): a shallow embedding of
    [chunking_method_LAB_2.py] and the properties of its three chunkers.

    The file keeps the text of the module between triple quotes; the
    embedding follows that text: [_try_get_tokenizer] and the three
    chunkers, statement by statement.

    Python values are modelled as follows.
    - [int] is [Z] (unbounded);
    - [str] is a list of Unicode code points ([N]); [len] is the list length;
    - a slice [seq[lo:hi]] is [slice], with Python's clamping of indices;
    - a [while] loop with [break] is [while], driven by a fuel counter:
      [None] means the fuel ran out before the loop was left;
    - a call either returns a value or raises: [outcome]. *)

From Stdlib Require Import String Ascii ZArith List Lia Bool.
Import ListNotations.
Open Scope Z_scope.

(** ** Python strings and sequences *)

Definition char := N.
Definition str := list char.

Definition len {A : Type} (l : list A) : Z := Z.of_nat (length l).

(** A string literal of ASCII characters, as a list of code points. *)
Definition lit (s : string) : str := map N_of_ascii (list_ascii_of_string s).

(** [str.isspace] on one character; the same set is what [\s] matches in a
    [str] pattern and what [str.strip()] and [str.split()] remove. *)
Definition isspace (c : char) : bool :=
  (((9 <=? c) && (c <=? 13)) || ((28 <=? c) && (c <=? 32))
   || (c =? 133) || (c =? 160) || (c =? 5760)
   || ((8192 <=? c) && (c <=? 8202))
   || (c =? 8232) || (c =? 8233) || (c =? 8239) || (c =? 8287)
   || (c =? 12288))%N.

(** The character class [[.!?]] of [_SENTENCE_SPLIT_RE]. *)
Definition is_sentence_end (c : char) : bool :=
  ((c =? 46) || (c =? 33) || (c =? 63))%N.

(** Truth value of a string: [if current] holds when it is not empty. *)
Definition truthy {A : Type} (s : list A) : bool :=
  match s with [] => false | _ :: _ => true end.

(** Index normalisation of a slice bound for a sequence of length [n]. *)
Definition clamp_index (n i : Z) : Z :=
  if i <? 0 then Z.max (i + n) 0 else Z.min i n.

(** [seq[lo:hi]]. *)
Definition slice {A : Type} (l : list A) (lo hi : Z) : list A :=
  let lo' := clamp_index (len l) lo in
  let hi' := clamp_index (len l) hi in
  firstn (Z.to_nat (hi' - lo')) (skipn (Z.to_nat lo') l).

(** [seq[lo:]]. *)
Definition slice_from {A : Type} (l : list A) (lo : Z) : list A :=
  skipn (Z.to_nat (clamp_index (len l) lo)) l.

(** [seq[:hi]]. *)
Definition slice_to {A : Type} (l : list A) (hi : Z) : list A :=
  firstn (Z.to_nat (clamp_index (len l) hi)) l.

Fixpoint dropwhile {A : Type} (p : A -> bool) (l : list A) : list A :=
  match l with
  | [] => []
  | x :: l' => if p x then dropwhile p l' else l
  end.

(** [s.strip()]: leading and trailing whitespace removed. *)
Definition strip (s : str) : str :=
  rev (dropwhile isspace (rev (dropwhile isspace s))).

(** [s.split()]: the maximal runs of non-whitespace characters.  [word] is the
    run being read, most recent character first. *)
Fixpoint split_words (word : str) (s : str) : list str :=
  match s with
  | [] => if truthy word then [rev word] else []
  | c :: s' =>
      if isspace c
      then (if truthy word then rev word :: split_words [] s'
            else split_words [] s')
      else split_words (c :: word) s'
  end.

Definition split (s : str) : list str := split_words [] s.

(** [sep.join(parts)]. *)
Fixpoint join (sep : str) (parts : list str) : str :=
  match parts with
  | [] => []
  | [p] => p
  | p :: rest => p ++ sep ++ join sep rest
  end.

Definition space : str := [32%N].

(** ** [_SENTENCE_SPLIT_RE.split]

    The pattern is [(?<=[.!?])\s+]: a match starts at a whitespace character
    whose predecessor is one of [. ! ?] and runs over the whole whitespace run.
    [re.split] returns the text between matches, so [k] matches give [k + 1]
    pieces.  The scanner below reads the text once, left to right. *)

Inductive scan_state :=
| InPiece (after_end : bool)  (* inside a piece; was the last character in [.!?] *)
| InMatch.                    (* inside a run matched by [\s+] *)

Fixpoint re_split_scan (st : scan_state) (piece : str) (s : str) : list str :=
  match s with
  | [] => [rev piece]
  | c :: s' =>
      match st with
      | InMatch =>
          if isspace c then re_split_scan InMatch piece s'
          else re_split_scan (InPiece (is_sentence_end c)) (c :: piece) s'
      | InPiece true =>
          if isspace c then rev piece :: re_split_scan InMatch [] s'
          else re_split_scan (InPiece (is_sentence_end c)) (c :: piece) s'
      | InPiece false =>
          re_split_scan (InPiece (is_sentence_end c)) (c :: piece) s'
      end
  end.

Definition _SENTENCE_SPLIT_RE_split (text : str) : list str :=
  re_split_scan (InPiece false) [] text.

(** ** Control: exceptions and loops *)

Inductive exn :=
| ValueError (msg : string)
| Exception (msg : string).   (* any other subclass of [Exception] *)

Inductive outcome (A : Type) :=
| Return (v : A)
| Raise (e : exn).
Arguments Return {A} v.
Arguments Raise {A} e.

Inductive ctl (St : Type) :=
| Continue (s : St)
| Break (s : St).
Arguments Continue {St} s.
Arguments Break {St} s.

(** [while cond: body], where [body] may leave the loop with [break]. *)
Fixpoint while {St : Type} (cond : St -> bool) (body : St -> ctl St)
    (fuel : nat) (s : St) : option St :=
  match fuel with
  | O => None
  | S fuel' =>
      if cond s then
        match body s with
        | Break s' => Some s'
        | Continue s' => while cond body fuel' s'
        end
      else Some s
  end.

(** A call returns [r] when some amount of fuel is enough to reach [r]; it
    diverges when no amount of fuel is. *)
Definition returns {A : Type} (call : nat -> option A) (r : A) : Prop :=
  exists fuel, call fuel = Some r.

Definition diverges {A : Type} (call : nat -> option A) : Prop :=
  forall fuel, call fuel = None.

(** ** The tokenizer capability *)

(** [encode] and [decode] are calls into the external tokenizer: each
    returns a value or raises. *)
Record Encoder := {
  encode : str -> exn + list Z;
  decode : list Z -> exn + str
}.

(** The environment of the call: [import tiktoken] may fail, and so may
    [tiktoken.get_encoding]. *)
Record tiktoken_env := {
  import_tiktoken : exn + (string -> exn + Encoder)
}.

(** [_try_get_tokenizer]: every exception is caught and turned into [None]. *)
Definition _try_get_tokenizer (env : tiktoken_env) (tokenizer_name : string)
    : option Encoder :=
  match import_tiktoken env with
  | inl _ => None
  | inr get_encoding =>
      match get_encoding tokenizer_name with
      | inl _ => None
      | inr encoder => Some encoder
      end
  end.

(** ** The window loop

    The loops of the fallback branch of [chunk_text_tokenwise] and of
    [chunk_text_charwise] are the same statement over a sequence [units]
    of words or characters; [render] turns a window into a chunk and does
    not raise.  The loop of the encoder branch, which calls
    [encoder.decode], follows further down. *)

Record window_state := {
  start : Z;
  chunks : list str
}.

Section Window.
Context {U : Type}.
Variable render : list U -> str.
Variable units : list U.
Variables max_size overlap : Z.

Definition window_cond (st : window_state) : bool :=
  start st <? len units.

Definition window_body (st : window_state) : ctl window_state :=
  let n := len units in
  let end_ := Z.min (start st + max_size) n in
  let chunks' := chunks st ++ [render (slice units (start st) end_)] in
  if end_ =? n then Break {| start := start st; chunks := chunks' |}
  else Continue {| start := Z.max (end_ - overlap) (end_ - max_size + 1);
                   chunks := chunks' |}.

Definition window_loop (fuel : nat) (st : window_state)
    : option window_state :=
  while window_cond window_body fuel st.

Definition windows (fuel : nat) : option (list str) :=
  option_map chunks (window_loop fuel {| start := 0; chunks := [] |}).

(** What the loop appends when it is entered with [start = s]: nothing past
    the end, one last window when the window reaches the end, and otherwise
    a full window followed by what it appends from the next start. *)
Inductive windows_from : Z -> list str -> Prop :=
| windows_done (s : Z) :
    len units <= s -> windows_from s []
| windows_last (s : Z) :
    s < len units -> len units <= s + max_size ->
    windows_from s [render (slice units s (len units))]
| windows_next (s : Z) (rest : list str) :
    s + max_size < len units ->
    windows_from (Z.max (s + max_size - overlap) (s + 1)) rest ->
    windows_from s (render (slice units s (s + max_size)) :: rest).
End Window.

(** ** The window loop of the encoder branch

    The same loop over the tokens, with [encoder.decode] called in its body:
    an exception raised there leaves the loop and the function.  [raised]
    holds that exception; the loop state is otherwise [start] and [chunks]. *)

Record encoder_state := {
  e_start : Z;
  e_chunks : list str;
  raised : option exn
}.

Section EncoderWindow.
Variable decode_ : list Z -> exn + str.
Variable tokens : list Z.
Variables max_tokens overlap : Z.

Definition encoder_cond (st : encoder_state) : bool :=
  e_start st <? len tokens.

Definition encoder_body (st : encoder_state) : ctl encoder_state :=
  let n := len tokens in
  let end_ := Z.min (e_start st + max_tokens) n in
  let chunk_tokens := slice tokens (e_start st) end_ in
  match decode_ chunk_tokens with
  | inl e =>
      Break {| e_start := e_start st; e_chunks := e_chunks st;
               raised := Some e |}
  | inr chunk_text =>
      let chunks' := e_chunks st ++ [chunk_text] in
      if end_ =? n
      then Break {| e_start := e_start st; e_chunks := chunks';
                    raised := None |}
      else Continue {| e_start := Z.max (end_ - overlap)
                                        (end_ - max_tokens + 1);
                       e_chunks := chunks'; raised := None |}
  end.

Definition encoder_windows (fuel : nat) : option (outcome (list str)) :=
  match while encoder_cond encoder_body fuel
          {| e_start := 0; e_chunks := []; raised := None |} with
  | None => None
  | Some st =>
      Some (match raised st with
            | Some e => Raise e
            | None => Return (e_chunks st)
            end)
  end.
End EncoderWindow.

(** ** [chunk_text_tokenwise] *)

Definition chunk_text_tokenwise (env : tiktoken_env) (text : str)
    (max_tokens overlap : Z) (tokenizer_name : string) (fuel : nat)
    : option (outcome (list str)) :=
  if max_tokens <=? 0 then Some (Raise (ValueError "max_tokens must be > 0"))
  else if overlap <? 0 then Some (Raise (ValueError "overlap must be >= 0"))
  else
    match _try_get_tokenizer env tokenizer_name with
    | Some encoder =>
        match encode encoder text with
        | inl e => Some (Raise e)
        | inr tokens =>
            encoder_windows (decode encoder) tokens max_tokens overlap fuel
        end
    | None =>
        let words := split text in
        option_map Return (windows (join space) words max_tokens overlap fuel)
    end.

(** ** [chunk_text_sentencewise] *)

Definition split_sentences (text : str) : list str :=
  map strip (filter (fun s => truthy (strip s)) (_SENTENCE_SPLIT_RE_split text)).

(** The variables of the loop; [out] is the list [chunks] of the function
    (the name [chunks] is taken by the window loop). *)
Record sentence_state := {
  i : Z;
  current : str;
  out : list str
}.

Section Sentences.
Variable sentences : list str.
Variables max_chars overlap_chars : Z.

Definition sentence_cond (st : sentence_state) : bool :=
  i st <? len sentences.

(** [sentences[i]]; the loop condition keeps the index in range. *)
Definition sentence_body (st : sentence_state) : ctl sentence_state :=
  let s := nth (Z.to_nat (i st)) sentences [] in
  let cur := current st in
  if (len cur + (if truthy cur then 1 else 0) + len s <=? max_chars)
     || negb (truthy cur)
  then Continue {| i := i st + 1;
                   current := if truthy cur then strip (cur ++ space ++ s)
                              else s;
                   out := out st |}
  else Continue {| i := i st;
                   current := if overlap_chars >? 0
                              then slice_from cur (- overlap_chars)
                              else [];
                   out := out st ++ [cur] |}.

Definition sentence_loop (fuel : nat) : option (list str) :=
  match while sentence_cond sentence_body fuel
          {| i := 0; current := []; out := [] |} with
  | None => None
  | Some st =>
      Some (if truthy (current st) then out st ++ [current st] else out st)
  end.
End Sentences.

Definition chunk_text_sentencewise (text : str) (max_chars overlap_chars : Z)
    (fuel : nat) : option (outcome (list str)) :=
  if max_chars <=? 0 then Some (Raise (ValueError "max_chars must be > 0"))
  else if overlap_chars <? 0
  then Some (Raise (ValueError "overlap_chars must be >= 0"))
  else option_map Return
         (sentence_loop (split_sentences text) max_chars overlap_chars fuel).

(** ** [chunk_text_charwise] *)

Definition chunk_text_charwise (text : str) (max_chars overlap_chars : Z)
    (fuel : nat) : option (outcome (list str)) :=
  if max_chars <=? 0 then Some (Raise (ValueError "max_chars must be > 0"))
  else if overlap_chars <? 0
  then Some (Raise (ValueError "overlap_chars must be >= 0"))
  else option_map Return
         (windows (fun w => w) text max_chars overlap_chars fuel).


(** ** Vocabulary of the properties *)

(** [ceil (a / b)] for a positive divisor. *)
Definition ceil_div (a b : Z) : Z := - ((- a) / b).

(** The last [k] and the first [k] characters of a chunk: [c[-k:]] for a
    positive [k], and [c[:k]]. *)
Definition last_chars (k : Z) (c : str) : str := slice_from c (- k).
Definition first_chars (k : Z) (c : str) : str := slice_to c k.

(** A chunk without its trailing [k] characters. *)
Definition drop_last (k : Z) (c : str) : str :=
  firstn (Z.to_nat (len c - k)) c.

(** The non-overlapping prefix of every chunk but the last, then the last
    chunk in full. *)
Fixpoint reconstruct (overlap_chars : Z) (cs : list str) : str :=
  match cs with
  | [] => []
  | [c] => c
  | c :: rest => drop_last overlap_chars c ++ reconstruct overlap_chars rest
  end.

(** A string of words separated by exactly one U+0020 each: it is not
    empty, does not begin or end with whitespace, and holds no other
    whitespace character nor two in a row. *)
Fixpoint single_spaced_from (after_space : bool) (s : str) : bool :=
  match s with
  | [] => negb after_space
  | c :: s' =>
      if isspace c
      then negb after_space && (c =? 32)%N && single_spaced_from true s'
      else single_spaced_from false s'
  end.

Definition single_spaced (s : str) : bool := single_spaced_from true s.

(** The arguments every chunker accepts. *)
Definition valid_args (max_size overlap : Z) : Prop :=
  0 < max_size /\ 0 <= overlap.

(** The sample text of the module's [__main__] block. *)
Definition sample : str :=
  lit ("This is a short example. It demonstrates chunking by sentences, "
       ++ "characters, or tokens. Use token-based chunking for embeddings "
       ++ "and character/sentence chunking for simpler pipelines.").

(** An environment without [tiktoken], and one whose [get_encoding] knows
    no encoding. *)
Definition no_tiktoken : tiktoken_env :=
  {| import_tiktoken := inl (Exception "No module named 'tiktoken'") |}.

Definition unknown_encoding : tiktoken_env :=
  {| import_tiktoken := inr (fun _ => inl (ValueError "Unknown encoding")) |}.

(** A one-token-per-character encoder, to exercise the encoder branch. *)
Definition codepoint_encoder : Encoder :=
  {| encode := fun text => inr (map Z.of_N text);
     decode := fun tokens => inr (map Z.to_N tokens) |}.

(** [text.startswith(needle)] and [needle in text]. *)
Fixpoint starts_with (needle text : str) : bool :=
  match needle, text with
  | [], _ => true
  | _ :: _, [] => false
  | c :: needle', d :: text' => (c =? d)%N && starts_with needle' text'
  end.

Fixpoint contains (needle text : str) : bool :=
  starts_with needle text
  || match text with
     | [] => false
     | _ :: text' => contains needle text'
     end.

(** An encoder that, like [tiktoken]'s with its default arguments, refuses
    a text that holds the special token [<|endoftext|>]. *)
Definition special_token_encoder : Encoder :=
  {| encode := fun text =>
       if contains (lit "<|endoftext|>") text
       then inl (ValueError "disallowed special token '<|endoftext|>'")
       else inr (map Z.of_N text);
     decode := fun tokens => inr (map Z.to_N tokens) |}.

Definition with_encoder (e : Encoder) : tiktoken_env :=
  {| import_tiktoken := inr (fun _ => inr e) |}.

(** [starts_clean s]: [s] does not begin with whitespace. *)
Definition starts_clean (s : str) : Prop :=
  match s with [] => True | c :: _ => isspace c = false end.

(** A non-empty string without whitespace at either end. *)
Definition tidy (s : str) : Prop :=
  s <> [] /\ starts_clean s /\ starts_clean (rev s).

(** A non-empty string without any whitespace. *)
Definition wordlike (w : str) : Prop :=
  w <> [] /\ Forall (fun c => isspace c = false) w.

(** The characters of the parts plus one separator after each. *)
Fixpoint total_len (parts : list str) : Z :=
  match parts with
  | [] => 0
  | p :: rest => len p + 1 + total_len rest
  end.

(** The number of units the token loop runs over; there is none when
    [encode] raises. *)
Definition token_count (env : tiktoken_env) (tokenizer_name : string)
    (text : str) : Z :=
  match _try_get_tokenizer env tokenizer_name with
  | Some encoder =>
      match encode encoder text with
      | inl _ => 0
      | inr tokens => len tokens
      end
  | None => len (split text)
  end.

(** A call raises exactly when its arguments are invalid: then it raises a
    [ValueError] whatever the fuel, so before the first iteration of its
    loop, and it raises nothing with valid arguments. *)
Definition raises_iff_invalid (call : nat -> option (outcome (list str)))
    (max_size overlap : Z) : Prop :=
  (max_size <= 0 \/ overlap < 0 ->
   exists msg, forall fuel, call fuel = Some (Raise (ValueError msg)))
  /\ (forall fuel e, call fuel = Some (Raise e) ->
        (max_size <= 0 \/ overlap < 0) /\ exists msg, e = ValueError msg).

(** More fuel does not change a result. *)
Definition fuel_monotone {A : Type} (call : nat -> option A) : Prop :=
  forall fuel fuel' r, (fuel <= fuel')%nat ->
                       call fuel = Some r -> call fuel' = Some r.

(** How far the window loop moves on after a full window:
    [max (end - overlap, end - max_size + 1) - start]. *)
Definition stride (max_size overlap : Z) : Z := Z.max (max_size - overlap) 1.

(** A text of whitespace only (the empty text included). *)
Definition blank (text : str) : Prop := Forall (fun c => isspace c = true) text.

(** The chunk made of the units [a] to [b] of the token loop:
    [encoder.decode(tokens[a:b])], or [" ".join(words[a:b])] without an
    encoder. *)
Definition token_window (env : tiktoken_env) (tokenizer_name : string)
    (text : str) (a b : Z) : exn + str :=
  match _try_get_tokenizer env tokenizer_name with
  | Some encoder =>
      match encode encoder text with
      | inl e => inl e
      | inr tokens => decode encoder (slice tokens a b)
      end
  | None => inr (join space (slice (split text) a b))
  end.

(** * Properties *)

(** ** Loops *)

Section WhileFacts.
Context {St : Type}.
Variable cond : St -> bool.
Variable body : St -> ctl St.

Lemma while_continue (fuel : nat) (s s' : St) :
  cond s = true -> body s = Continue s' ->
  while cond body (S fuel) s = while cond body fuel s'.
Proof. intros Hc Hb. simpl. now rewrite Hc, Hb. Qed.

Lemma while_break (fuel : nat) (s s' : St) :
  cond s = true -> body s = Break s' ->
  while cond body (S fuel) s = Some s'.
Proof. intros Hc Hb. simpl. now rewrite Hc, Hb. Qed.

Lemma while_exit (fuel : nat) (s : St) :
  cond s = false -> while cond body (S fuel) s = Some s.
Proof. intros Hc. simpl. now rewrite Hc. Qed.

(** More fuel never changes a result. *)
Lemma while_fuel_mono (fuel fuel' : nat) (s r : St) :
  (fuel <= fuel')%nat ->
  while cond body fuel s = Some r -> while cond body fuel' s = Some r.
Proof.
  revert fuel' s. induction fuel as [|fuel IH]; intros fuel' s Hle Hrun.
  - discriminate.
  - destruct fuel' as [|fuel']; [lia|]. simpl in *.
    destruct (cond s); [|assumption].
    destruct (body s); [|assumption].
    apply IH; [lia|assumption].
Qed.

(** A loop whose body strictly decreases a measure is left within
    [measure s] iterations. *)
Lemma while_measure (measure : St -> nat) :
  (forall s s', cond s = true -> body s = Continue s' ->
                (measure s' < measure s)%nat) ->
  forall fuel s, (measure s < fuel)%nat ->
                 exists r, while cond body fuel s = Some r.
Proof.
  intros Hdec. induction fuel as [|fuel IH]; intros s Hm; [lia|].
  simpl. destruct (cond s) eqn:Hc; [|eauto].
  destruct (body s) as [s'|s'] eqn:Hb; [|eauto].
  apply IH. specialize (Hdec s s' Hc Hb). lia.
Qed.

(** A loop that keeps an invariant under which it always continues is
    never left. *)
Lemma while_never_left (inv : St -> Prop) :
  (forall s, inv s -> cond s = true /\ exists s', body s = Continue s' /\ inv s') ->
  forall fuel s, inv s -> while cond body fuel s = None.
Proof.
  intros Hinv. induction fuel as [|fuel IH]; intros s Hs; [reflexivity|].
  destruct (Hinv s Hs) as [Hc [s' [Hb Hs']]].
  rewrite (while_continue _ _ _ Hc Hb). now apply IH.
Qed.
End WhileFacts.

(** ** Slices *)

Section SliceFacts.
Context {A : Type}.
Implicit Types l : list A.

Lemma len_nonneg l : 0 <= len l.
Proof. unfold len. lia. Qed.

Lemma len_cons (x : A) l : len (x :: l) = 1 + len l.
Proof. unfold len. simpl length. lia. Qed.

Lemma len_app l l' : len (l ++ l') = len l + len l'.
Proof. unfold len. rewrite length_app. lia. Qed.

Lemma slice_inside l (lo hi : Z) :
  0 <= lo <= hi -> hi <= len l ->
  slice l lo hi = firstn (Z.to_nat (hi - lo)) (skipn (Z.to_nat lo) l).
Proof.
  intros Hlo Hhi. unfold slice, clamp_index.
  destruct (Z.ltb_spec lo 0); [lia|]. destruct (Z.ltb_spec hi 0); [lia|].
  now rewrite !Z.min_l by lia.
Qed.

Lemma len_slice l (lo hi : Z) :
  0 <= lo <= hi -> hi <= len l -> len (slice l lo hi) = hi - lo.
Proof.
  intros Hlo Hhi. rewrite slice_inside by assumption. unfold len in *.
  rewrite length_firstn, length_skipn. lia.
Qed.

Lemma slice_to_end l (lo : Z) :
  0 <= lo <= len l -> slice l lo (len l) = skipn (Z.to_nat lo) l.
Proof.
  intros Hlo. rewrite slice_inside by lia. apply firstn_all2.
  unfold len in *. rewrite length_skipn. lia.
Qed.

Lemma slice_all l : slice l 0 (len l) = l.
Proof. rewrite slice_to_end by (pose proof (len_nonneg l); lia). reflexivity. Qed.

(** The first [k] elements of a slice. *)
Lemma slice_to_slice l (lo hi k : Z) :
  0 <= lo -> hi <= len l -> 0 <= k <= hi - lo ->
  slice_to (slice l lo hi) k = slice l lo (lo + k).
Proof.
  intros Hlo Hhi Hk. unfold slice_to.
  rewrite len_slice by lia. unfold clamp_index.
  destruct (Z.ltb_spec k 0); [lia|]. rewrite Z.min_l by lia.
  rewrite !slice_inside by lia. rewrite firstn_firstn.
  f_equal. lia.
Qed.

(** The last [k] elements of a slice. *)
Lemma slice_from_slice l (lo hi k : Z) :
  0 <= lo -> hi <= len l -> 0 < k <= hi - lo ->
  slice_from (slice l lo hi) (- k) = slice l (hi - k) hi.
Proof.
  intros Hlo Hhi Hk. unfold slice_from.
  rewrite len_slice by lia. unfold clamp_index.
  destruct (Z.ltb_spec (- k) 0); [|lia]. rewrite Z.max_l by lia.
  rewrite !slice_inside by lia.
  rewrite skipn_firstn_comm, skipn_skipn. f_equal; try lia; f_equal; lia.
Qed.

Lemma firstn_plus l (a b : nat) :
  firstn (a + b) l = firstn a l ++ firstn b (skipn a l).
Proof.
  revert l. induction a as [|a IH]; intros l; [reflexivity|].
  destruct l as [|x l]; simpl.
  - now rewrite firstn_nil.
  - now rewrite IH.
Qed.

(** Two adjacent slices make one. *)
Lemma slice_app l (lo mid hi : Z) :
  0 <= lo <= mid -> mid <= hi -> hi <= len l ->
  slice l lo mid ++ slice l mid hi = slice l lo hi.
Proof.
  intros Hlo Hmid Hhi. rewrite !slice_inside by lia.
  replace (Z.to_nat mid) with (Z.to_nat (mid - lo) + Z.to_nat lo)%nat by lia.
  rewrite <- skipn_skipn.
  replace (Z.to_nat (hi - lo))
    with (Z.to_nat (mid - lo) + Z.to_nat (hi - mid))%nat by lia.
  now rewrite firstn_plus.
Qed.
End SliceFacts.

(** ** The window loop *)

Section WindowFacts.
Context {U : Type}.
Variable render : list U -> str.
Variable units : list U.
Variables max_size overlap : Z.

Local Abbreviation loop := (window_loop render units max_size overlap).
Local Abbreviation from := (windows_from render units max_size overlap).

(** Whatever the loop returns is the chunks it was entered with followed by
    the windows from its start position. *)
Lemma window_loop_sound (fuel : nat) :
  forall s cs st,
    loop fuel {| start := s; chunks := cs |} = Some st ->
    exists ws, from s ws /\ chunks st = cs ++ ws.
Proof.
  induction fuel as [|fuel IH]; intros s cs st Hrun; [discriminate|].
  unfold window_loop in Hrun. simpl in Hrun.
  unfold window_cond in Hrun at 1. simpl in Hrun.
  destruct (Z.ltb_spec s (len units)) as [Hlt|Hge].
  - unfold window_body in Hrun at 1. simpl in Hrun.
    destruct (Z.eqb_spec (Z.min (s + max_size) (len units)) (len units))
      as [Heq|Hne].
    + injection Hrun as <-. simpl. rewrite Heq.
      eexists. split; [apply windows_last; lia|reflexivity].
    + assert (Hfull : s + max_size < len units) by lia.
      rewrite Z.min_l in Hrun by lia.
      replace (s + max_size - max_size + 1) with (s + 1) in Hrun by lia.
      destruct (IH _ _ _ Hrun) as [ws [Hws Hst]].
      exists (render (slice units s (s + max_size)) :: ws). split.
      * now apply windows_next.
      * rewrite Hst, <- app_assoc. reflexivity.
  - injection Hrun as <-. exists []. split.
    + now apply windows_done.
    + simpl. now rewrite app_nil_r.
Qed.

(** With a positive window size every iteration moves [start] forward, so
    the loop is left within [len units - start] iterations. *)
Lemma window_loop_total (fuel : nat) (s : Z) (cs : list str) :
  0 < max_size ->
  (Z.to_nat (len units - s) < fuel)%nat ->
  exists st, loop fuel {| start := s; chunks := cs |} = Some st.
Proof.
  intros Hmax Hfuel.
  apply (while_measure _ _ (fun st => Z.to_nat (len units - start st)));
    [|assumption].
  intros st st' Hc Hb. unfold window_cond in Hc. apply Z.ltb_lt in Hc.
  unfold window_body in Hb.
  destruct (Z.eqb_spec (Z.min (start st + max_size) (len units)) (len units));
    [discriminate|].
  injection Hb as <-. simpl. lia.
Qed.

Lemma windows_returns :
  0 < max_size ->
  exists ws, from 0 ws /\
    forall fuel, (length units < fuel)%nat ->
                 windows render units max_size overlap fuel = Some ws.
Proof.
  intros Hmax.
  destruct (window_loop_total (S (length units)) 0 [] Hmax) as [st Hst].
  { unfold len. lia. }
  destruct (window_loop_sound _ _ _ _ Hst) as [ws [Hws Hcs]].
  exists ws. split; [assumption|]. intros fuel Hfuel. unfold windows.
  unfold window_loop in *.
  rewrite (while_fuel_mono _ _ (S (length units)) fuel _ st) by (assumption || lia).
  simpl. now rewrite Hcs.
Qed.

Lemma windows_sound (fuel : nat) (ws : list str) :
  windows render units max_size overlap fuel = Some ws -> from 0 ws.
Proof.
  unfold windows. intros Hrun.
  destruct (loop fuel _) as [st|] eqn:Hst; [|discriminate].
  injection Hrun as <-.
  destruct (window_loop_sound _ _ _ _ Hst) as [ws [Hws Hcs]].
  simpl in Hcs. now rewrite Hcs.
Qed.

(** The first window from [s]. *)
Lemma windows_from_head (s : Z) (c : str) (rest : list str) :
  0 < max_size ->
  from s (c :: rest) ->
  s < len units /\
  c = render (slice units s (Z.min (s + max_size) (len units))).
Proof.
  intros Hmax H. inversion H; subst.
  - split; [assumption|]. now rewrite Z.min_r by lia.
  - split; [lia|now rewrite Z.min_l by lia].
Qed.

Lemma windows_from_nonempty (s : Z) (ws : list str) :
  from s ws -> s < len units -> 0 < max_size -> ws <> [].
Proof. intros H Hs Hmax. inversion H; subst; (lia || discriminate). Qed.

(** Every window renders a non-empty run [units[a:b]]. *)
Lemma windows_from_runs (s : Z) (ws : list str) :
  from s ws -> 0 <= s -> 0 < max_size ->
  Forall (fun c => exists a b,
            0 <= a < b /\ b <= len units /\ b - a <= max_size /\
            c = render (slice units a b)) ws.
Proof.
  intros H Hs Hmax. induction H as [s Hd|s Hlt Hl|s rest Hfull Hrest IH].
  - constructor.
  - constructor; [|constructor]. exists s, (len units). repeat split; lia.
  - constructor; [|apply IH; lia].
    exists s, (s + max_size). repeat split; lia.
Qed.
End WindowFacts.

Section WindowShapes.
Context {U : Type}.
Variable render : list U -> str.
Variable units : list U.
Variables max_size overlap : Z.
Hypothesis max_size_pos : 0 < max_size.

Local Abbreviation from := (windows_from render units max_size overlap).

(** No unit, no window. *)
Lemma windows_from_nil (ws : list str) :
  units = [] -> from 0 ws -> ws = [].
Proof.
  intros -> H. inversion H; subst; [reflexivity| |]; unfold len in *; simpl in *; lia.
Qed.

(** Units that fit one window make one chunk. *)
Lemma windows_from_fit (ws : list str) :
  units <> [] -> len units <= max_size -> from 0 ws -> ws = [render units].
Proof.
  intros Hne Hfit H.
  assert (0 < len units) by (unfold len; destruct units; simpl; [congruence|lia]).
  inversion H; subst; [lia| |lia]. now rewrite slice_all.
Qed.
End WindowShapes.

(** ** Ceiling division *)

Lemma ceil_div_bounds (a b : Z) :
  0 < b -> (ceil_div a b - 1) * b < a <= ceil_div a b * b.
Proof.
  intros Hb. unfold ceil_div.
  pose proof (Z.div_mod (- a) b ltac:(lia)) as Hdm.
  pose proof (Z.mod_pos_bound (- a) b Hb) as Hm.
  nia.
Qed.

Lemma ceil_div_unique (a b q : Z) :
  0 < b -> (q - 1) * b < a <= q * b -> ceil_div a b = q.
Proof.
  intros Hb Hq. pose proof (ceil_div_bounds a b Hb) as Hc. nia.
Qed.

Lemma ceil_div_0 (b : Z) : 0 < b -> ceil_div 0 b = 0.
Proof. intros Hb. apply ceil_div_unique; lia. Qed.

Lemma ceil_div_step (a b : Z) :
  0 < b -> 0 < a -> ceil_div a b = 1 + ceil_div (Z.max 0 (a - b)) b.
Proof.
  intros Hb Ha. apply ceil_div_unique; [assumption|].
  pose proof (ceil_div_bounds (Z.max 0 (a - b)) b Hb) as Hc.
  destruct (Z.le_gt_cases a b) as [Hle|Hgt].
  - rewrite Z.max_l in * by lia. rewrite ceil_div_0 by assumption. lia.
  - rewrite Z.max_r in * by lia. lia.
Qed.

(** ** [chunk_text_charwise] *)

Section Charwise.
Variable text : str.
Variables max_chars overlap_chars : Z.

Local Abbreviation from :=
  (windows_from (fun w : str => w) text max_chars overlap_chars).

Lemma charwise_valid (fuel : nat) :
  valid_args max_chars overlap_chars ->
  chunk_text_charwise text max_chars overlap_chars fuel
  = option_map Return
      (windows (fun w => w) text max_chars overlap_chars fuel).
Proof.
  intros [Hmax Hov]. unfold chunk_text_charwise.
  destruct (Z.leb_spec max_chars 0); [lia|].
  destruct (Z.ltb_spec overlap_chars 0); [lia|reflexivity].
Qed.

(** With valid arguments the call returns, within [len text] iterations,
    the windows from position 0. *)
Lemma charwise_returns :
  valid_args max_chars overlap_chars ->
  exists cs, from 0 cs /\
    forall fuel, (length text < fuel)%nat ->
      chunk_text_charwise text max_chars overlap_chars fuel = Some (Return cs).
Proof.
  intros Hv. destruct Hv as [Hmax Hov].
  destruct (windows_returns (fun w => w) text max_chars overlap_chars Hmax)
    as [cs [Hcs Hrun]].
  exists cs. split; [assumption|]. intros fuel Hfuel.
  rewrite charwise_valid by (split; assumption).
  now rewrite Hrun.
Qed.

Lemma firstn_slice (lo hi k : Z) :
  0 <= lo -> hi <= len text -> 0 <= k <= hi - lo ->
  firstn (Z.to_nat k) (slice text lo hi) = slice text lo (lo + k).
Proof.
  intros Hlo Hhi Hk. rewrite !slice_inside by lia. rewrite firstn_firstn.
  f_equal. lia.
Qed.

(** Dropping the overlap of every window but the last leaves the text from
    the start position on. *)
Lemma reconstruct_from (s : Z) (cs : list str) :
  0 <= overlap_chars < max_chars ->
  from s cs -> 0 <= s ->
  reconstruct overlap_chars cs = skipn (Z.to_nat s) text.
Proof.
  intros Hov H. induction H as [s Hd|s Hlt Hl|s rest Hfull Hrest IH]; intros Hs.
  - symmetry. apply skipn_all2. unfold len in Hd. lia.
  - simpl. apply slice_to_end. lia.
  - rewrite (Z.max_l (s + max_chars - overlap_chars)) in * by lia.
    assert (Hne : rest <> []).
    { apply (windows_from_nonempty _ _ _ _ _ _ Hrest); lia. }
    destruct rest as [|c rest]; [congruence|].
    change (drop_last overlap_chars (slice text s (s + max_chars))
            ++ reconstruct overlap_chars (c :: rest)
            = skipn (Z.to_nat s) text).
    rewrite IH by lia. unfold drop_last.
    rewrite len_slice by lia.
    rewrite firstn_slice by lia.
    rewrite <- !slice_to_end by lia.
    replace (s + max_chars - s - overlap_chars)
      with (max_chars - overlap_chars) by lia.
    replace (s + max_chars - overlap_chars)
      with (s + (max_chars - overlap_chars)) by lia.
    apply slice_app; lia.
Qed.

(** The number of windows from a position inside the text. *)
Lemma count_from (s : Z) (cs : list str) :
  0 <= overlap_chars < max_chars ->
  from s cs -> 0 <= s < len text ->
  len cs = 1 + ceil_div (Z.max 0 (len text - s - max_chars))
                        (max_chars - overlap_chars).
Proof.
  intros Hov H. induction H as [s Hd|s Hlt Hl|s rest Hfull Hrest IH]; intros Hs.
  - lia.
  - rewrite Z.max_l by lia. rewrite ceil_div_0 by lia. reflexivity.
  - rewrite (Z.max_l (s + max_chars - overlap_chars)) in * by lia.
    rewrite len_cons, IH by lia.
    rewrite (Z.max_r 0 (_ - s - max_chars)) by lia.
    rewrite (ceil_div_step (_ - s - max_chars)) by lia.
    replace (len text - (s + max_chars - overlap_chars) - max_chars)
      with (len text - s - max_chars - (max_chars - overlap_chars)) by lia.
    reflexivity.
Qed.

(** Adjacent windows share [overlap_chars] characters unless the overlap
    is the whole window. *)
Lemma overlap_from (s : Z) (cs : list str) :
  0 < max_chars -> 0 < overlap_chars -> overlap_chars <> max_chars ->
  from s cs -> 0 <= s ->
  forall (k : nat) (a b : str),
    nth_error cs k = Some a -> nth_error cs (S k) = Some b ->
    overlap_chars <= len a -> overlap_chars <= len b ->
    last_chars overlap_chars a = first_chars overlap_chars b.
Proof.
  intros Hmax Hov Hne H.
  induction H as [s Hd|s Hlt Hl|s rest Hfull Hrest IH];
    intros Hs k a b Ha Hb Hla Hlb.
  - destruct k; discriminate.
  - destruct k; discriminate.
  - destruct k as [|k].
    + simpl in Ha, Hb. injection Ha as <-.
      destruct rest as [|b' rest]; [discriminate|]. injection Hb as ->.
      destruct (windows_from_head _ _ _ _ _ _ _ Hmax Hrest) as [Hin ->].
      rewrite len_slice in Hla by lia.
      rewrite (Z.max_l (s + max_chars - overlap_chars)) in * by lia.
      set (s' := s + max_chars - overlap_chars) in *.
      set (e := Z.min (s' + max_chars) (len text)) in *.
      rewrite len_slice in Hlb by lia.
      unfold last_chars, first_chars.
      rewrite slice_from_slice by lia.
      rewrite slice_to_slice by lia.
      f_equal; lia.
    + simpl in Ha, Hb. apply (IH ltac:(lia) k a b); assumption.
Qed.
End Charwise.

Lemma charwise_sound (text : str) (max_chars overlap_chars : Z)
    (cs : list str) :
  valid_args max_chars overlap_chars ->
  returns (chunk_text_charwise text max_chars overlap_chars) (Return cs) ->
  windows_from (fun w : str => w) text max_chars overlap_chars 0 cs.
Proof.
  intros Hv [fuel Hrun]. rewrite charwise_valid in Hrun by assumption.
  destruct (windows _ _ _ _ fuel) as [ws|] eqn:Hws; [|discriminate].
  injection Hrun as <-. exact (windows_sound _ _ _ _ _ _ Hws).
Qed.

(** C3: for [0 <= overlap_chars < max_chars] the call returns, and the
    chunks it returns give the text back: every chunk but the last without
    its trailing [overlap_chars] characters, then the last chunk whole. *)
Theorem charwise_roundtrip (text : str) (max_chars overlap_chars : Z) :
  0 < max_chars -> 0 <= overlap_chars < max_chars ->
  exists cs,
    returns (chunk_text_charwise text max_chars overlap_chars) (Return cs)
    /\ reconstruct overlap_chars cs = text.
Proof.
  intros Hmax Hov.
  destruct (charwise_returns text max_chars overlap_chars) as [cs [Hcs Hrun]].
  { split; lia. }
  exists cs. split.
  - exists (S (length text)). apply Hrun. lia.
  - now rewrite (reconstruct_from text max_chars overlap_chars 0 cs).
Qed.

Lemma charwise_roundtrip_witness :
  exists cs,
    returns (chunk_text_charwise (lit "abcdefghij") 5 2) (Return cs)
    /\ reconstruct 2 cs = lit "abcdefghij".
Proof. apply (charwise_roundtrip (lit "abcdefghij") 5 2); lia. Defined.

(** C2 (as amended): for a non-empty text and
    [0 <= overlap_chars < max_chars] the call returns exactly
    [1 + ceil (max (0, len text - max_chars) / (max_chars - overlap_chars))]
    chunks; without overlap that is [ceil (len text / max_chars)]. *)
Theorem charwise_count (text : str) (max_chars overlap_chars : Z) :
  text <> [] -> 0 < max_chars -> 0 <= overlap_chars < max_chars ->
  exists cs,
    returns (chunk_text_charwise text max_chars overlap_chars) (Return cs)
    /\ len cs = 1 + ceil_div (Z.max 0 (len text - max_chars))
                             (max_chars - overlap_chars)
    /\ (overlap_chars = 0 -> len cs = ceil_div (len text) max_chars).
Proof.
  intros Hne Hmax Hov.
  assert (Hlen : 0 < len text).
  { unfold len. destruct text; simpl; [congruence|lia]. }
  destruct (charwise_returns text max_chars overlap_chars) as [cs [Hcs Hrun]].
  { split; lia. }
  pose proof (count_from text max_chars overlap_chars 0 cs Hov Hcs
                ltac:(lia)) as Hcount.
  rewrite Z.sub_0_r in Hcount.
  exists cs. split; [|split].
  - exists (S (length text)). apply Hrun. lia.
  - exact Hcount.
  - intros ->. rewrite Hcount, Z.sub_0_r. symmetry.
    now apply ceil_div_step.
Qed.

Lemma charwise_count_witness :
  exists cs,
    returns (chunk_text_charwise (lit "abcdefghij") 5 2) (Return cs)
    /\ len cs = 1 + ceil_div (Z.max 0 (len (lit "abcdefghij") - 5)) (5 - 2)
    /\ (2 = 0 -> len cs = ceil_div (len (lit "abcdefghij")) 5).
Proof.
  apply (charwise_count (lit "abcdefghij") 5 2); [discriminate|lia|lia].
Defined.

(** C2 as stated fails with an overlap: ten characters in windows of five
    overlapping by two make three chunks, not [ceil (10 / 3) = 4]. *)
Lemma charwise_count_counterexample :
  lit "abcdefghij" <> [] /\ 0 < 5 /\ 0 <= 2 < 5 /\
  returns (chunk_text_charwise (lit "abcdefghij") 5 2)
          (Return [lit "abcde"; lit "defgh"; lit "ghij"])
  /\ len [lit "abcde"; lit "defgh"; lit "ghij"]
     <> ceil_div (len (lit "abcdefghij")) (5 - 2).
Proof.
  split; [discriminate|]. split; [lia|]. split; [lia|]. split.
  - exists 3%nat. vm_compute. reflexivity.
  - vm_compute. discriminate.
Qed.

(** C4 (as amended): when [0 < overlap_chars] and
    [overlap_chars <> max_chars], two adjacent chunks that are both at
    least [overlap_chars] long share them: the last [overlap_chars]
    characters of the first are the first [overlap_chars] of the second. *)
Theorem charwise_adjacent_overlap (text : str) (max_chars overlap_chars : Z)
    (cs : list str) (k : nat) (a b : str) :
  0 < max_chars -> 0 < overlap_chars -> overlap_chars <> max_chars ->
  returns (chunk_text_charwise text max_chars overlap_chars) (Return cs) ->
  nth_error cs k = Some a -> nth_error cs (S k) = Some b ->
  overlap_chars <= len a -> overlap_chars <= len b ->
  last_chars overlap_chars a = first_chars overlap_chars b.
Proof.
  intros Hmax Hov Hne Hret Ha Hb Hla Hlb.
  apply charwise_sound in Hret; [|split; lia].
  exact (overlap_from text max_chars overlap_chars 0 cs Hmax Hov Hne Hret
           ltac:(lia) k a b Ha Hb Hla Hlb).
Qed.

Lemma charwise_adjacent_overlap_witness :
  last_chars 2 (lit "abcde") = first_chars 2 (lit "defgh").
Proof.
  apply (charwise_adjacent_overlap (lit "abcdefghij") 5 2
           [lit "abcde"; lit "defgh"; lit "ghij"] 0 (lit "abcde") (lit "defgh")).
  - lia.
  - lia.
  - lia.
  - exists 3%nat. vm_compute. reflexivity.
  - reflexivity.
  - reflexivity.
  - vm_compute. discriminate.
  - vm_compute. discriminate.
Defined.

(** C4 as stated fails when the overlap is the whole window: the loop then
    moves on by one character, and the two chunks of ["abc"] differ. *)
Lemma charwise_adjacent_overlap_counterexample :
  0 < 2 /\
  returns (chunk_text_charwise (lit "abc") 2 2) (Return [lit "ab"; lit "bc"])
  /\ 2 <= len (lit "ab") /\ 2 <= len (lit "bc")
  /\ last_chars 2 (lit "ab") <> first_chars 2 (lit "bc").
Proof.
  split; [lia|]. split; [exists 2%nat; vm_compute; reflexivity|].
  split; [vm_compute; discriminate|]. split; [vm_compute; discriminate|].
  vm_compute. discriminate.
Qed.

(** ** [chunk_text_sentencewise] *)

Lemma diverges_after_continue {St : Type} (cond : St -> bool)
    (body : St -> ctl St) (s s' : St) :
  cond s = true -> body s = Continue s' ->
  (forall fuel, while cond body fuel s' = None) ->
  forall fuel, while cond body fuel s = None.
Proof.
  intros Hc Hb Hs' [|fuel]; [reflexivity|].
  rewrite (while_continue _ _ _ _ _ Hc Hb). apply Hs'.
Qed.

Section SentenceFacts.
Variable sentences : list str.
Variables max_chars overlap_chars : Z.

Local Abbreviation cond := (sentence_cond sentences).
Local Abbreviation body := (sentence_body sentences max_chars overlap_chars).

Lemma slice_from_short (cur : str) (k : Z) :
  len cur <= k -> slice_from cur (- k) = cur.
Proof.
  intros Hk. unfold slice_from, clamp_index.
  pose proof (len_nonneg cur).
  destruct (Z.ltb_spec (- k) 0).
  - now rewrite Z.max_r by lia.
  - assert (len cur = 0) as E by lia. rewrite E.
    now replace (Z.to_nat (Z.min (- k) 0)) with 0%nat by lia.
Qed.

(** The loop is never left once the buffer is no longer than the overlap
    and does not take the sentence at hand: the reseeded buffer is the same
    buffer again, and the sentence index stays where it is. *)
Lemma sentence_loop_stuck (k : Z) (cur : str) :
  0 <= k < len sentences ->
  cur <> [] -> 0 < overlap_chars -> len cur <= overlap_chars ->
  max_chars < len cur + 1 + len (nth (Z.to_nat k) sentences []) ->
  forall fuel out0,
    while cond body fuel {| i := k; current := cur; out := out0 |} = None.
Proof.
  intros Hk Hcur Hov Hshort Hbig fuel out0.
  apply (while_never_left _ _ (fun st => i st = k /\ current st = cur));
    [|split; reflexivity].
  intros [i0 cur0 o0] [Hi Hc]. simpl in Hi, Hc. subst i0 cur0. split.
  - unfold sentence_cond. simpl. apply Z.ltb_lt. lia.
  - unfold sentence_body. simpl.
    destruct cur as [|c cur']; [congruence|].
    change (truthy (c :: cur')) with true. simpl negb. rewrite orb_false_r.
    destruct (Z.leb_spec (len (c :: cur') + 1
                          + len (nth (Z.to_nat k) sentences [])) max_chars);
      [lia|].
    destruct (Z.gtb_spec overlap_chars 0); [|lia].
    eexists. split; [reflexivity|]. simpl. split; [reflexivity|].
    now apply slice_from_short.
Qed.
End SentenceFacts.

Lemma sentencewise_diverges_from (text : str) (max_chars overlap_chars : Z) :
  valid_args max_chars overlap_chars ->
  (forall fuel,
     while (sentence_cond (split_sentences text))
           (sentence_body (split_sentences text) max_chars overlap_chars)
           fuel {| i := 0; current := []; out := [] |} = None) ->
  diverges (chunk_text_sentencewise text max_chars overlap_chars).
Proof.
  intros [Hmax Hov] Hloop fuel. unfold chunk_text_sentencewise.
  destruct (Z.leb_spec max_chars 0); [lia|].
  destruct (Z.ltb_spec overlap_chars 0); [lia|].
  unfold sentence_loop. now rewrite Hloop.
Qed.

(** C1: the sentence loop is not always left.  On the call of the module's
    own [__main__] block, [chunk_text_sentencewise(sample, max_chars=50,
    overlap_chars=10)], the first sentence is emitted, the buffer is reseeded
    with its last ten characters, the second sentence (61 characters) still
    does not fit, and from then on every iteration emits the same ten
    characters again: with valid arguments, no amount of fuel lets the call
    return. *)
Theorem sentencewise_sample_diverges :
  valid_args 50 10 /\ diverges (chunk_text_sentencewise sample 50 10).
Proof.
  split; [split; lia|].
  apply sentencewise_diverges_from; [split; lia|].
  apply (diverges_after_continue _ _ _
           {| i := 1; current := lit "This is a short example."; out := [] |});
    [vm_compute; reflexivity|vm_compute; reflexivity|].
  apply (diverges_after_continue _ _ _
           {| i := 1; current := lit "t example.";
              out := [lit "This is a short example."] |});
    [vm_compute; reflexivity|vm_compute; reflexivity|].
  intros fuel. apply sentence_loop_stuck.
  - vm_compute. split; [discriminate|reflexivity].
  - discriminate.
  - lia.
  - vm_compute. discriminate.
  - vm_compute. reflexivity.
Qed.

(** C8: an over-long sentence that is not the first one is never emitted
    when [overlap_chars > 0]: the reseeded buffer is not empty, so the
    sentence is refused again and again and the call does not return. *)
Theorem sentencewise_oversized_not_emitted :
  split_sentences (lit "Hi. Averylongsentencewithnospaces.")
  = [lit "Hi."; lit "Averylongsentencewithnospaces."]
  /\ 5 < len (lit "Averylongsentencewithnospaces.")
  /\ diverges (chunk_text_sentencewise
                 (lit "Hi. Averylongsentencewithnospaces.") 5 1).
Proof.
  split; [vm_compute; reflexivity|]. split; [vm_compute; reflexivity|].
  apply sentencewise_diverges_from; [split; lia|].
  apply (diverges_after_continue _ _ _
           {| i := 1; current := lit "Hi."; out := [] |});
    [vm_compute; reflexivity|vm_compute; reflexivity|].
  apply (diverges_after_continue _ _ _
           {| i := 1; current := lit "."; out := [lit "Hi."] |});
    [vm_compute; reflexivity|vm_compute; reflexivity|].
  intros fuel. apply sentence_loop_stuck.
  - vm_compute. split; [discriminate|reflexivity].
  - discriminate.
  - lia.
  - vm_compute. discriminate.
  - vm_compute. reflexivity.
Qed.

(** The example of the specification: one over-long sentence alone. *)
Example sentencewise_oversized_example :
  chunk_text_sentencewise (lit "Averylongsentencewithnospaces.") 5 0 2
  = Some (Return [lit "Averylongsentencewithnospaces."]).
Proof. vm_compute. reflexivity. Qed.

Example sentencewise_three_sentences :
  chunk_text_sentencewise (lit "A. B. C.") 4 0 7
  = Some (Return [lit "A."; lit "B."; lit "C."]).
Proof. vm_compute. reflexivity. Qed.

(** ** Strings: [strip], [split], [join] and the sentence splitter *)

Lemma dropwhile_starts_clean (s : str) : starts_clean (dropwhile isspace s).
Proof.
  induction s as [|c s IH]; simpl; [exact I|].
  destruct (isspace c) eqn:E; [assumption|exact E].
Qed.

Lemma dropwhile_clean (s : str) :
  starts_clean s -> dropwhile isspace s = s.
Proof. destruct s as [|c s]; simpl; [reflexivity|]. now intros ->. Qed.

Lemma dropwhile_suffix (s : str) :
  exists pre, s = pre ++ dropwhile isspace s.
Proof.
  induction s as [|c s [pre IH]]; simpl.
  - now exists [].
  - destruct (isspace c).
    + exists (c :: pre). simpl. now f_equal.
    + now exists [].
Qed.

Lemma len_dropwhile (s : str) : len (dropwhile isspace s) <= len s.
Proof.
  destruct (dropwhile_suffix s) as [pre E]. rewrite E at 2.
  rewrite len_app. pose proof (len_nonneg pre). lia.
Qed.

Lemma len_rev (s : str) : len (rev s) = len s.
Proof. unfold len. now rewrite length_rev. Qed.

Lemma len_strip (s : str) : len (strip s) <= len s.
Proof.
  unfold strip. rewrite len_rev.
  pose proof (len_dropwhile (rev (dropwhile isspace s))) as H1.
  pose proof (len_dropwhile s) as H2. rewrite len_rev in H1. lia.
Qed.

Lemma strip_tidy (s : str) : tidy s -> strip s = s.
Proof.
  intros [_ [Hs Hr]]. unfold strip.
  rewrite (dropwhile_clean s Hs), (dropwhile_clean _ Hr). apply rev_involutive.
Qed.

Lemma starts_clean_app (s t : str) :
  s <> [] -> starts_clean s -> starts_clean (s ++ t).
Proof. destruct s; [congruence|]. intros _ H. exact H. Qed.

Lemma tidy_strip (s : str) : strip s <> [] -> tidy (strip s).
Proof.
  intros Hne. split; [assumption|]. unfold strip in *.
  set (d := dropwhile isspace s) in *.
  set (e := dropwhile isspace (rev d)) in *.
  split.
  - destruct (dropwhile_suffix (rev d)) as [pre E]. fold e in E.
    assert (Hd : d = rev e ++ rev pre).
    { rewrite <- rev_app_distr, <- E. symmetry. apply rev_involutive. }
    pose proof (dropwhile_starts_clean s) as Hc. fold d in Hc.
    rewrite Hd in Hc. destruct (rev e); [congruence|]. exact Hc.
  - rewrite rev_involutive. apply dropwhile_starts_clean.
Qed.

Lemma tidy_app (s sep t : str) : tidy s -> tidy t -> tidy (s ++ sep ++ t).
Proof.
  intros [Hs [Hs1 Hs2]] [Ht [Ht1 Ht2]]. split; [|split].
  - destruct s; [congruence|discriminate].
  - now apply starts_clean_app.
  - rewrite !rev_app_distr, <- app_assoc. apply starts_clean_app; [|assumption].
    destruct t; [congruence|]. simpl. now destruct (rev t).
Qed.

Lemma total_len_nonneg (parts : list str) : 0 <= total_len parts.
Proof.
  induction parts as [|p rest IH]; simpl; [lia|].
  pose proof (len_nonneg p). lia.
Qed.

Lemma total_len_app (l l' : list str) :
  total_len (l ++ l') = total_len l + total_len l'.
Proof. induction l as [|p l IH]; simpl; [reflexivity|]. rewrite IH. lia. Qed.

Lemma len_join (parts : list str) :
  parts <> [] -> len (join space parts) = total_len parts - 1.
Proof.
  induction parts as [|p rest IH]; [congruence|]. intros _.
  destruct rest as [|q rest].
  - simpl. lia.
  - change (join space (p :: q :: rest))
      with (p ++ space ++ join space (q :: rest)).
    rewrite !len_app, IH by discriminate.
    change (total_len (p :: q :: rest))
      with (len p + 1 + total_len (q :: rest)).
    change (len space) with 1. lia.
Qed.

Lemma join_snoc (sep : str) (parts : list str) (p : str) :
  parts <> [] -> join sep (parts ++ [p]) = join sep parts ++ sep ++ p.
Proof.
  induction parts as [|q rest IH]; [congruence|]. intros _.
  destruct rest as [|r rest].
  - reflexivity.
  - change (join sep ((q :: r :: rest) ++ [p]))
      with (q ++ sep ++ join sep ((r :: rest) ++ [p])).
    rewrite IH by discriminate.
    change (join sep (q :: r :: rest)) with (q ++ sep ++ join sep (r :: rest)).
    now rewrite <- !app_assoc.
Qed.

Lemma tidy_join (parts : list str) :
  parts <> [] -> Forall tidy parts -> tidy (join space parts).
Proof.
  induction parts as [|p rest IH]; [congruence|]. intros _ Hall.
  inversion Hall as [|? ? Hp Hrest]; subst.
  destruct rest as [|q rest]; [exact Hp|].
  change (join space (p :: q :: rest))
    with (p ++ space ++ join space (q :: rest)).
  apply tidy_app; [assumption|]. apply IH; [discriminate|assumption].
Qed.

(** The sentence splitter consumes at least one character per separator. *)
Lemma total_len_re_split_scan (s : str) :
  forall st piece,
    total_len (re_split_scan st piece s) <= len piece + len s + 1.
Proof.
  induction s as [|c s IH]; intros st piece.
  - simpl. rewrite len_rev. change (len (@nil char)) with 0. lia.
  - rewrite len_cons. cbn [re_split_scan].
    destruct st as [[|]|]; try destruct (isspace c);
      try (simpl total_len; rewrite ?len_rev);
      match goal with
      | |- context [re_split_scan ?st' ?p' s] =>
          specialize (IH st' p'); try rewrite len_cons in IH;
          change (len (@nil char)) with 0 in IH; lia
      end.
Qed.

Lemma total_len_split_sentences (text : str) :
  total_len (split_sentences text) <= len text + 1.
Proof.
  unfold split_sentences, _SENTENCE_SPLIT_RE_split.
  pose proof (total_len_re_split_scan text (InPiece false) []) as H.
  change (len (@nil char)) with 0 in H.
  enough (forall l, total_len (map strip
                      (filter (fun s => truthy (strip s)) l)) <= total_len l)
    as Hle by (specialize (Hle (re_split_scan (InPiece false) [] text)); lia).
  induction l as [|p l IH]; simpl; [lia|].
  pose proof (len_strip p). pose proof (len_nonneg p).
  destruct (truthy (strip p)); simpl; lia.
Qed.

Lemma split_sentences_tidy (text : str) : Forall tidy (split_sentences text).
Proof.
  unfold split_sentences.
  induction (_SENTENCE_SPLIT_RE_split text) as [|p l IH]; simpl; [constructor|].
  destruct (truthy (strip p)) eqn:E; [|assumption].
  simpl. constructor; [|assumption].
  apply tidy_strip. destruct (strip p); [discriminate|discriminate].
Qed.

(** [str.split()] yields words: non-empty and free of whitespace. *)
Lemma rev_wordlike (x : char) (word : str) :
  Forall (fun c => isspace c = false) (x :: word) -> wordlike (rev (x :: word)).
Proof.
  intros H. split.
  - intros E. apply (f_equal (@rev char)) in E.
    rewrite rev_involutive in E. discriminate.
  - now apply Forall_rev.
Qed.

Lemma split_words_wordlike (s : str) :
  forall word,
    Forall (fun c => isspace c = false) word ->
    Forall wordlike (split_words word s).
Proof.
  induction s as [|c s IH]; intros word Hword; cbn [split_words].
  - destruct word as [|x word]; cbn [truthy]; [constructor|].
    constructor; [now apply rev_wordlike|constructor].
  - destruct (isspace c) eqn:E.
    + destruct word as [|x word]; cbn [truthy]; [apply IH; constructor|].
      constructor; [now apply rev_wordlike|apply IH; constructor].
    + apply IH. now constructor.
Qed.

Lemma split_wordlike (text : str) : Forall wordlike (split text).
Proof. apply split_words_wordlike. constructor. Qed.

Lemma truthy_true {A : Type} (l : list A) : l <> [] -> truthy l = true.
Proof. destruct l; [congruence|reflexivity]. Qed.

Section SentenceRuns.
Variable sentences : list str.
Variables max_chars overlap_chars : Z.
Hypothesis sentences_tidy : Forall tidy sentences.

Local Abbreviation cond := (sentence_cond sentences).
Local Abbreviation body := (sentence_body sentences max_chars overlap_chars).

(** When all sentences joined by single spaces fit in [max_chars], the
    loop takes them in one after the other and emits nothing before the
    end. *)
Lemma sentence_loop_accumulates (rest : list str) :
  len (join space sentences) <= max_chars ->
  forall done fuel,
    sentences = done ++ rest -> (length rest < fuel)%nat ->
    while cond body fuel
      {| i := len done; current := join space done; out := [] |}
    = Some {| i := len sentences; current := join space sentences;
              out := [] |}.
Proof.
  intros Hfit. induction rest as [|s rest IH]; intros done fuel Hsplit Hfuel.
  - rewrite app_nil_r in Hsplit. subst done.
    destruct fuel as [|fuel]; [lia|]. apply while_exit.
    unfold sentence_cond. simpl. apply Z.ltb_irrefl.
  - destruct fuel as [|fuel]; [simpl in Hfuel; lia|].
    assert (Hs : nth (Z.to_nat (len done)) sentences [] = s).
    { unfold len. rewrite Nat2Z.id, Hsplit. apply nth_middle. }
    assert (Hc : cond {| i := len done; current := join space done;
                         out := [] |} = true).
    { unfold sentence_cond. simpl. apply Z.ltb_lt. rewrite Hsplit.
      rewrite len_app, len_cons. pose proof (len_nonneg rest). lia. }
    destruct done as [|d done].
    + rewrite (while_continue _ _ _ _
                 {| i := len [s]; current := join space [s]; out := [] |} Hc).
      * apply IH; [assumption|simpl in Hfuel; lia].
      * unfold sentence_body. cbn [i current out]. rewrite Hs. simpl truthy.
        simpl negb. rewrite orb_true_r. reflexivity.
    + assert (Hdone : Forall tidy (d :: done)).
      { rewrite Hsplit in sentences_tidy.
        now apply Forall_app in sentences_tidy. }
      assert (Htidy_s : tidy s).
      { rewrite Hsplit in sentences_tidy.
        apply Forall_app in sentences_tidy as [_ H].
        now inversion H. }
      pose proof (tidy_join (d :: done) ltac:(discriminate) Hdone) as Hcur.
      rewrite (while_continue _ _ _ _
                 {| i := len ((d :: done) ++ [s]);
                    current := join space ((d :: done) ++ [s]);
                    out := [] |} Hc).
      * apply IH; [now rewrite <- app_assoc|simpl in Hfuel; lia].
      * unfold sentence_body. cbn [i current out]. rewrite Hs.
        rewrite (truthy_true (join space (d :: done))) by apply Hcur.
        assert (Hle : len (join space (d :: done)) + 1 + len s <= max_chars).
        { rewrite len_join in Hfit |- * by (rewrite ?Hsplit; discriminate).
          rewrite Hsplit in Hfit. rewrite total_len_app in Hfit.
          change (total_len (s :: rest)) with (len s + 1 + total_len rest)
            in Hfit.
          pose proof (total_len_nonneg rest). lia. }
        apply Z.leb_le in Hle. rewrite Hle. cbn [orb].
        rewrite strip_tidy by (apply tidy_app; assumption).
        rewrite join_snoc by discriminate.
        rewrite len_app. reflexivity.
Qed.

Lemma sentence_loop_fits (fuel : nat) :
  sentences <> [] ->
  len (join space sentences) <= max_chars ->
  (length sentences < fuel)%nat ->
  sentence_loop sentences max_chars overlap_chars fuel
  = Some [join space sentences].
Proof.
  intros Hne Hfit Hfuel. unfold sentence_loop.
  change 0 with (len (@nil str)). change (@nil char) with (join space []).
  rewrite (sentence_loop_accumulates sentences Hfit [] fuel eq_refl Hfuel).
  cbn [current out].
  rewrite truthy_true by (apply tidy_join; assumption). reflexivity.
Qed.
End SentenceRuns.

(** A loop invariant carries over to the state the loop is left in. *)
Lemma while_invariant {St : Type} (cond : St -> bool) (body : St -> ctl St)
    (inv post : St -> Prop) :
  (forall s s', inv s -> cond s = true -> body s = Continue s' -> inv s') ->
  (forall s s', inv s -> cond s = true -> body s = Break s' -> post s') ->
  (forall s, inv s -> cond s = false -> post s) ->
  forall fuel s r, inv s -> while cond body fuel s = Some r -> post r.
Proof.
  intros Hcont Hbreak Hexit.
  induction fuel as [|fuel IH]; intros s r Hs Hrun; [discriminate|].
  simpl in Hrun. destruct (cond s) eqn:Hc.
  - destruct (body s) as [s'|s'] eqn:Hb.
    + exact (IH s' r (Hcont s s' Hs Hc Hb) Hrun).
    + injection Hrun as <-. exact (Hbreak s s' Hs Hc Hb).
  - injection Hrun as <-. exact (Hexit s Hs Hc).
Qed.

Section SentencesWithoutOverlap.
Variable sentences : list str.
Variable max_chars : Z.
Hypothesis max_chars_pos : 0 < max_chars.

Local Abbreviation cond := (sentence_cond sentences).
Local Abbreviation body := (sentence_body sentences max_chars 0).

(** Without overlap an emission empties the buffer, and the next iteration
    takes a sentence: the loop is left within [2 * len sentences]
    iterations. *)
Lemma sentence_loop_no_overlap_total :
  exists cs, forall fuel,
    (2 * length sentences + 1 < fuel)%nat ->
    sentence_loop sentences max_chars 0 fuel = Some cs.
Proof.
  set (m := fun st : sentence_state =>
              (2 * Z.to_nat (len sentences - i st)
               + (if truthy (current st) then 1 else 0))%nat).
  destruct (while_measure cond body m) with
    (fuel := S (S (2 * length sentences)))
    (s := {| i := 0; current := []; out := [] |}) as [r Hr].
  - intros [k cur o] st' Hc Hb. unfold sentence_cond in Hc. simpl in Hc.
    apply Z.ltb_lt in Hc. unfold sentence_body in Hb. cbn [i current out] in Hb.
    destruct ((len cur + (if truthy cur then 1 else 0)
               + len (nth (Z.to_nat k) sentences []) <=? max_chars)
              || negb (truthy cur)) eqn:E;
      injection Hb as <-; unfold m; cbn [i current out].
    + destruct (truthy cur); destruct (truthy _); lia.
    + apply orb_false_iff in E as [_ E]. apply negb_false_iff in E.
      rewrite E. change (0 >? 0) with false. cbn [truthy]. lia.
  - unfold m. simpl. unfold len. lia.
  - exists (if truthy (current r) then out r ++ [current r] else out r).
    intros fuel Hfuel. unfold sentence_loop.
    now rewrite (while_fuel_mono _ _ (S (S (2 * length sentences))) fuel _ r
                   ltac:(lia) Hr).
Qed.

(** Without overlap every sentence longer than [max_chars] is a chunk of
    the result, whole and on its own. *)
Lemma sentence_loop_no_overlap_oversized (fuel : nat) (cs : list str) :
  sentence_loop sentences max_chars 0 fuel = Some cs ->
  forall s, In s sentences -> max_chars < len s -> In s cs.
Proof.
  unfold sentence_loop.
  destruct (while cond body fuel _) as [r|] eqn:Hrun; [|discriminate].
  intros Hcs. injection Hcs as <-.
  set (inv := fun st : sentence_state =>
    0 <= i st /\
    forall j s, (j < Z.to_nat (i st))%nat -> nth_error sentences j = Some s ->
                max_chars < len s -> In s (out st) \/ current st = s).
  assert (Hpost : inv r /\ len sentences <= i r).
  { refine (while_invariant cond body inv
              (fun st => inv st /\ len sentences <= i st) _ _ _ fuel _ r _ Hrun).
    - intros [k cur o] st' [Hk Hinv] Hc Hb. cbn [i current out] in *.
      unfold sentence_body in Hb. cbn [i current out] in Hb.
      destruct ((len cur + (if truthy cur then 1 else 0)
                 + len (nth (Z.to_nat k) sentences []) <=? max_chars)
                || negb (truthy cur)) eqn:E; injection Hb as <-;
        split; cbn [i current out]; try lia.
      + intros j s Hj Hnth Hbig.
        assert (Hcases : (j < Z.to_nat k)%nat \/ j = Z.to_nat k) by lia.
        pose proof (len_nonneg (nth (Z.to_nat k) sentences [])) as Hnn.
        destruct Hcases as [Hlt| ->].
        * destruct (Hinv j s Hlt Hnth Hbig) as [Hin|Hcur]; [now left|].
          subst cur. exfalso. destruct s as [|c s].
          { change (len (@nil char)) with 0 in Hbig. lia. }
          simpl truthy in E. simpl negb in E. rewrite orb_false_r in E.
          apply Z.leb_le in E. lia.
        * right. apply nth_error_nth with (d := @nil char) in Hnth.
          rewrite Hnth in E, Hnn |- *.
          destruct cur as [|c cur]; [reflexivity|exfalso].
          simpl truthy in E. simpl negb in E. rewrite orb_false_r in E.
          apply Z.leb_le in E. pose proof (len_nonneg (c :: cur)). lia.
      + intros j s Hj Hnth Hbig. left. apply in_or_app.
        destruct (Hinv j s Hj Hnth Hbig) as [Hin|Hcur]; [now left|].
        right. now left.
    - intros [k cur o] st' _ _ Hb. unfold sentence_body in Hb.
      destruct (_ || _) in Hb; discriminate.
    - intros st Hst Hc. split; [assumption|].
      unfold sentence_cond in Hc. now apply Z.ltb_ge in Hc.
    - split; [simpl; lia|]. intros j s Hj. simpl in Hj. lia. }
  destruct Hpost as [[Hi Hinv] Hend].
  intros s Hin Hbig. apply In_nth_error in Hin as [j Hj].
  assert (Hlt : (j < length sentences)%nat).
  { apply nth_error_Some. congruence. }
  destruct (Hinv j s) as [Ho|Hc]; [unfold len in Hend; lia|assumption..| |].
  - destruct (truthy (current r)); [apply in_or_app; now left|assumption].
  - rewrite truthy_true.
    + apply in_or_app. right. left. assumption.
    + rewrite Hc. intros ->. change (len (@nil char)) with 0 in Hbig. lia.
Qed.
End SentencesWithoutOverlap.

(** A text of one sentence is returned as that one sentence, whatever its
    length and whatever the overlap. *)
Lemma sentence_loop_single (s : str) (max_chars overlap_chars : Z)
    (fuel : nat) :
  s <> [] -> (1 < fuel)%nat ->
  sentence_loop [s] max_chars overlap_chars fuel = Some [s].
Proof.
  intros Hs Hfuel. destruct fuel as [|[|fuel]]; [lia|lia|].
  unfold sentence_loop.
  rewrite (while_continue _ _ _ _ {| i := 1; current := s; out := [] |}).
  - rewrite while_exit by reflexivity. cbn [current out].
    now rewrite truthy_true.
  - reflexivity.
  - unfold sentence_body. cbn [i current out]. simpl truthy. simpl negb.
    now rewrite orb_true_r.
Qed.

(** ** Words and single spacing *)

Lemma Forall_firstn {A : Type} (P : A -> Prop) (n : nat) (l : list A) :
  Forall P l -> Forall P (firstn n l).
Proof.
  revert l. induction n as [|n IH]; intros l H; [constructor|].
  destruct H; simpl; constructor; auto.
Qed.

Lemma Forall_skipn {A : Type} (P : A -> Prop) (n : nat) (l : list A) :
  Forall P l -> Forall P (skipn n l).
Proof.
  revert l. induction n as [|n IH]; intros l H; [assumption|].
  destruct H; simpl; [constructor|auto].
Qed.

Lemma Forall_slice {A : Type} (P : A -> Prop) (l : list A) (lo hi : Z) :
  Forall P l -> Forall P (slice l lo hi).
Proof. intros H. unfold slice. now apply Forall_firstn, Forall_skipn. Qed.

Lemma single_spaced_word (w r : str) :
  wordlike w ->
  forall b, single_spaced_from b (w ++ r) = single_spaced_from false r.
Proof.
  intros [Hne Hw]. induction Hw as [|c w Hc Hw IH]; [congruence|].
  intros b. simpl. rewrite Hc. destruct w as [|c' w]; [reflexivity|].
  apply IH. discriminate.
Qed.

Lemma single_spaced_join (ws : list str) :
  ws <> [] -> Forall wordlike ws -> single_spaced (join space ws) = true.
Proof.
  unfold single_spaced.
  induction ws as [|w rest IH]; [congruence|]. intros _ Hall.
  inversion Hall as [|? ? Hw Hrest]; subst.
  destruct rest as [|q rest].
  - simpl join. rewrite <- (app_nil_r w).
    now rewrite single_spaced_word.
  - change (join space (w :: q :: rest))
      with (w ++ space ++ join space (q :: rest)).
    rewrite single_spaced_word by assumption.
    change (single_spaced_from true (join space (q :: rest)) = true).
    apply IH; [discriminate|assumption].
Qed.

(** A text with a character that is not whitespace has a word, and a
    sentence. *)
Lemma split_words_nonempty (s : str) :
  forall word,
    word <> [] \/ Exists (fun c => isspace c = false) s ->
    split_words word s <> [].
Proof.
  induction s as [|c s IH]; intros word H; cbn [split_words].
  - destruct H as [H|H]; [|inversion H].
    destruct word; [congruence|discriminate].
  - destruct (isspace c) eqn:E.
    + destruct word as [|x word]; cbn [truthy]; [|discriminate].
      apply IH. right. destruct H as [H|H]; [congruence|].
      inversion H; subst; [congruence|assumption].
    + apply IH. left. discriminate.
Qed.

Lemma re_split_scan_nonspace (s : str) :
  forall st piece,
    Exists (fun c => isspace c = false) piece
    \/ Exists (fun c => isspace c = false) s ->
    Exists (Exists (fun c => isspace c = false)) (re_split_scan st piece s).
Proof.
  induction s as [|c s IH]; intros st piece H; cbn [re_split_scan].
  - destruct H as [H|H]; [|inversion H].
    constructor. now apply Exists_rev.
  - assert (Hspace : isspace c = true ->
                     Exists (fun c => isspace c = false) piece
                     \/ Exists (fun c => isspace c = false) s).
    { intros E. destruct H as [H|H]; [now left|right].
      inversion H; subst; [congruence|assumption]. }
    assert (Hpush : Exists (fun c => isspace c = false) (c :: piece)
                    \/ Exists (fun c => isspace c = false) s).
    { destruct H as [H|H]; [left; now apply Exists_cons_tl|].
      inversion H; subst; [left; now apply Exists_cons_hd|now right]. }
    destruct st as [[|]|]; try destruct (isspace c) eqn:E;
      try (apply IH; now auto).
    destruct (Hspace eq_refl) as [Hp|Hs].
    + apply Exists_cons_hd. now apply Exists_rev.
    + apply Exists_cons_tl. apply IH. now right.
Qed.

Lemma dropwhile_nonspace (s : str) :
  Exists (fun c => isspace c = false) s ->
  Exists (fun c => isspace c = false) (dropwhile isspace s).
Proof.
  induction 1 as [c s Hc|c s H IH]; simpl.
  - rewrite Hc. now constructor.
  - destruct (isspace c) eqn:E; [assumption|now constructor].
Qed.

Lemma strip_nonspace (s : str) :
  Exists (fun c => isspace c = false) s -> strip s <> [].
Proof.
  intros H. unfold strip.
  apply dropwhile_nonspace, Exists_rev, dropwhile_nonspace, Exists_rev in H.
  intros E. rewrite E in H. inversion H.
Qed.

Lemma split_sentences_nonempty (text : str) :
  Exists (fun c => isspace c = false) text -> split_sentences text <> [].
Proof.
  intros H. unfold split_sentences, _SENTENCE_SPLIT_RE_split.
  pose proof (re_split_scan_nonspace text (InPiece false) [] (or_intror H))
    as Hex.
  induction Hex as [p l Hp|p l Hex IH]; simpl.
  - rewrite (truthy_true (strip p)) by now apply strip_nonspace.
    discriminate.
  - destruct (truthy (strip p)); [discriminate|assumption].
Qed.

(** ** [chunk_text_tokenwise] *)

Section EncoderLoop.
Variable decode_ : list Z -> exn + str.
Variable tokens : list Z.
Variables max_tokens overlap : Z.

Local Abbreviation econd := (encoder_cond tokens).
Local Abbreviation ebody := (encoder_body decode_ tokens max_tokens overlap).

(** No token, no call of [decode], no chunk. *)
Lemma encoder_windows_nil (fuel : nat) :
  tokens = [] ->
  encoder_windows decode_ tokens max_tokens overlap (S fuel) = Some (Return []).
Proof. intros ->. reflexivity. Qed.

(** Tokens that fit one window are decoded in one call. *)
Lemma encoder_windows_fit (fuel : nat) (c : str) :
  0 < len tokens <= max_tokens -> decode_ tokens = inr c ->
  encoder_windows decode_ tokens max_tokens overlap (S fuel)
  = Some (Return [c]).
Proof.
  intros Hfit Hdec. unfold encoder_windows.
  rewrite (while_break _ _ _ _
             {| e_start := 0; e_chunks := [c]; raised := None |});
    [reflexivity| |].
  - unfold encoder_cond. simpl. apply Z.ltb_lt. lia.
  - unfold encoder_body. cbn [e_start e_chunks].
    rewrite Z.min_r by lia. rewrite slice_all, Hdec, Z.eqb_refl.
    reflexivity.
Qed.

Lemma encoder_windows_fit_raise (fuel : nat) (e : exn) :
  0 < len tokens <= max_tokens -> decode_ tokens = inl e ->
  encoder_windows decode_ tokens max_tokens overlap (S fuel) = Some (Raise e).
Proof.
  intros Hfit Hdec. unfold encoder_windows.
  rewrite (while_break _ _ _ _
             {| e_start := 0; e_chunks := []; raised := Some e |});
    [reflexivity| |].
  - unfold encoder_cond. simpl. apply Z.ltb_lt. lia.
  - unfold encoder_body. cbn [e_start e_chunks].
    rewrite Z.min_r by lia. now rewrite slice_all, Hdec.
Qed.

(** While [decode] returns, the loop is the window loop. *)
Lemma encoder_loop_simulates (render : list Z -> str) :
  0 < max_tokens ->
  (forall a b, 0 <= a < b -> b <= len tokens -> b - a <= max_tokens ->
               decode_ (slice tokens a b) = inr (render (slice tokens a b))) ->
  forall fuel s cs,
    0 <= s ->
    while econd ebody fuel {| e_start := s; e_chunks := cs; raised := None |}
    = option_map (fun st => {| e_start := start st; e_chunks := chunks st;
                               raised := None |})
        (window_loop render tokens max_tokens overlap fuel
           {| start := s; chunks := cs |}).
Proof.
  intros Hmax Hdec. induction fuel as [|fuel IH]; intros s cs Hs;
    [reflexivity|].
  unfold window_loop in *. cbn [while].
  unfold encoder_cond at 1, window_cond at 1. cbn [e_start start].
  destruct (Z.ltb_spec s (len tokens)) as [Hlt|Hge]; [|reflexivity].
  unfold encoder_body at 1, window_body at 1. cbn [e_start e_chunks start chunks].
  rewrite Hdec by lia.
  destruct (Z.eqb_spec (Z.min (s + max_tokens) (len tokens)) (len tokens));
    [reflexivity|].
  apply IH. lia.
Qed.

Lemma encoder_windows_simulates (render : list Z -> str) (fuel : nat) :
  0 < max_tokens ->
  (forall a b, 0 <= a < b -> b <= len tokens -> b - a <= max_tokens ->
               decode_ (slice tokens a b) = inr (render (slice tokens a b))) ->
  encoder_windows decode_ tokens max_tokens overlap fuel
  = option_map Return (windows render tokens max_tokens overlap fuel).
Proof.
  intros Hmax Hdec. unfold encoder_windows, windows.
  rewrite (encoder_loop_simulates render Hmax Hdec fuel 0 []) by lia.
  now destruct (window_loop render tokens max_tokens overlap fuel _).
Qed.

(** An exception that leaves the loop was raised by [decode] on some
    window of the tokens. *)
Lemma encoder_windows_raise (fuel : nat) (e : exn) :
  encoder_windows decode_ tokens max_tokens overlap fuel = Some (Raise e) ->
  exists a b, decode_ (slice tokens a b) = inl e.
Proof.
  unfold encoder_windows.
  destruct (while econd ebody fuel _) as [st|] eqn:Hrun; [|discriminate].
  intros Hraise.
  assert (Hpost : forall x, raised st = Some x ->
                            exists a b, decode_ (slice tokens a b) = inl x).
  { refine (while_invariant econd ebody (fun st => raised st = None)
              (fun st => forall x, raised st = Some x ->
                           exists a b, decode_ (slice tokens a b) = inl x)
              _ _ _ fuel _ st _ Hrun).
    - intros s s' _ _ Hb. unfold encoder_body in Hb.
      destruct (decode_ _); [discriminate|].
      destruct (_ =? _); [discriminate|]. now injection Hb as <-.
    - intros s s' _ _ Hb x. unfold encoder_body in Hb.
      destruct (decode_ _) as [y|c] eqn:Hdec.
      + injection Hb as <-. cbn [raised]. intros Hx. injection Hx as <-.
        eauto.
      + destruct (_ =? _); [|discriminate]. injection Hb as <-. discriminate.
    - intros s Hs _ x Hx. congruence.
    - reflexivity. }
  destruct (raised st) as [x|]; [|discriminate].
  injection Hraise as <-. now apply Hpost.
Qed.

Lemma encoder_windows_fuel_monotone :
  fuel_monotone (encoder_windows decode_ tokens max_tokens overlap).
Proof.
  intros f f' r Hle H. unfold encoder_windows in *.
  destruct (while econd ebody f _) as [st|] eqn:E; [|discriminate].
  now rewrite (while_fuel_mono _ _ f f' _ st Hle E).
Qed.
End EncoderLoop.

Lemma tokenwise_valid (env : tiktoken_env) (text : str)
    (max_tokens overlap : Z) (name : string) (fuel : nat) :
  valid_args max_tokens overlap ->
  chunk_text_tokenwise env text max_tokens overlap name fuel
  = match _try_get_tokenizer env name with
    | Some encoder =>
        match encode encoder text with
        | inl e => Some (Raise e)
        | inr tokens =>
            encoder_windows (decode encoder) tokens max_tokens overlap fuel
        end
    | None =>
        option_map Return
          (windows (join space) (split text) max_tokens overlap fuel)
    end.
Proof.
  intros [Hmax Hov]. unfold chunk_text_tokenwise.
  destruct (Z.leb_spec max_tokens 0); [lia|].
  destruct (Z.ltb_spec overlap 0); [lia|reflexivity].
Qed.

(** Without an encoder and with valid arguments the token loop is left
    within [len words] iterations. *)
Lemma tokenwise_returns (env : tiktoken_env) (text : str)
    (max_tokens overlap : Z) (name : string) :
  valid_args max_tokens overlap ->
  _try_get_tokenizer env name = None ->
  exists cs, forall fuel,
    (length (split text) < fuel)%nat ->
    chunk_text_tokenwise env text max_tokens overlap name fuel
    = Some (Return cs).
Proof.
  intros Hv Hres. pose proof Hv as [Hmax Hov].
  destruct (windows_returns (join space) (split text) max_tokens overlap
              Hmax) as [cs [_ Hrun]].
  exists cs. intros fuel Hfuel. rewrite tokenwise_valid, Hres by assumption.
  now rewrite Hrun.
Qed.

Lemma sentencewise_valid (text : str) (max_chars overlap_chars : Z)
    (fuel : nat) :
  valid_args max_chars overlap_chars ->
  chunk_text_sentencewise text max_chars overlap_chars fuel
  = option_map Return
      (sentence_loop (split_sentences text) max_chars overlap_chars fuel).
Proof.
  intros [Hmax Hov]. unfold chunk_text_sentencewise.
  destruct (Z.leb_spec max_chars 0); [lia|].
  destruct (Z.ltb_spec overlap_chars 0); [lia|reflexivity].
Qed.

(** ** Errors *)

Lemma option_map_Return_not_Raise {A : Type} (o : option A) (e : exn) :
  option_map Return o <> Some (Raise e).
Proof. destruct o; discriminate. Qed.

(** The shape shared by the three chunkers: two guards, then the work. *)
Lemma guarded_raises_iff_invalid (max_size overlap : Z) (msg1 msg2 : string)
    (work : nat -> option (outcome (list str))) :
  (forall fuel e, work fuel <> Some (Raise e)) ->
  raises_iff_invalid
    (fun fuel =>
       if max_size <=? 0 then Some (Raise (ValueError msg1))
       else if overlap <? 0 then Some (Raise (ValueError msg2))
       else work fuel)
    max_size overlap.
Proof.
  intros Hwork. unfold raises_iff_invalid.
  destruct (Z.leb_spec max_size 0) as [Hmax|Hmax];
    [|destruct (Z.ltb_spec overlap 0) as [Hov|Hov]].
  - split.
    + intros _. exists msg1. reflexivity.
    + intros fuel e H. injection H as <-. split; [now left|now exists msg1].
  - split.
    + intros _. exists msg2. reflexivity.
    + intros fuel e H. injection H as <-. split; [now right|now exists msg2].
  - split.
    + intros [H|H]; lia.
    + intros fuel e H. destruct (Hwork fuel e H).
Qed.

(** C5 (as amended): with a size limit [<= 0] or an overlap [< 0] each
    chunker raises [ValueError], whatever the fuel: before any loop
    iteration, before the tokenizer is looked up or called, before any
    chunk.  With valid arguments the sentence and the character chunker
    raise nothing, and neither does the token chunker when no tokenizer is
    found; with an encoder, the token chunker raises what [encoder.encode]
    raises, and any other exception it raises was raised by
    [encoder.decode] on a window of the tokens. *)
Theorem chunkers_errors (env : tiktoken_env) (name : string)
    (text : str) (max_size overlap : Z) :
  (max_size <= 0 \/ overlap < 0 ->
   exists msg, forall fuel,
     chunk_text_tokenwise env text max_size overlap name fuel
     = Some (Raise (ValueError msg)))
  /\ raises_iff_invalid
       (chunk_text_sentencewise text max_size overlap) max_size overlap
  /\ raises_iff_invalid
       (chunk_text_charwise text max_size overlap) max_size overlap
  /\ (valid_args max_size overlap ->
      forall fuel e,
        chunk_text_tokenwise env text max_size overlap name fuel
        = Some (Raise e) ->
        exists encoder,
          _try_get_tokenizer env name = Some encoder
          /\ (encode encoder text = inl e
              \/ exists tokens a b,
                   encode encoder text = inr tokens
                   /\ decode encoder (slice tokens a b) = inl e))
  /\ (valid_args max_size overlap ->
      forall encoder e,
        _try_get_tokenizer env name = Some encoder ->
        encode encoder text = inl e ->
        forall fuel,
          chunk_text_tokenwise env text max_size overlap name fuel
          = Some (Raise e)).
Proof.
  split; [|split; [|split; [|split]]].
  - intros Hinv. unfold chunk_text_tokenwise.
    destruct (Z.leb_spec max_size 0); [eexists; reflexivity|].
    destruct (Z.ltb_spec overlap 0); [eexists; reflexivity|lia].
  - apply guarded_raises_iff_invalid. intros fuel e.
    apply option_map_Return_not_Raise.
  - apply guarded_raises_iff_invalid. intros fuel e.
    apply option_map_Return_not_Raise.
  - intros Hv fuel e Hraise. rewrite tokenwise_valid in Hraise by assumption.
    destruct (_try_get_tokenizer env name) as [encoder|].
    + exists encoder. split; [reflexivity|].
      destruct (encode encoder text) as [x|tokens].
      * left. now injection Hraise as <-.
      * right. destruct (encoder_windows_raise _ _ _ _ _ _ Hraise)
          as (a & b & Hdec).
        now exists tokens, a, b.
    + destruct (option_map_Return_not_Raise _ _ Hraise).
  - intros Hv encoder e Hres Henc fuel.
    now rewrite tokenwise_valid, Hres, Henc.
Qed.

Lemma chunkers_errors_witness :
  (exists msg, forall fuel,
     chunk_text_tokenwise (with_encoder special_token_encoder)
       (lit "<|endoftext|>") 0 50 "gpt2" fuel
     = Some (Raise (ValueError msg)))
  /\ forall fuel,
       chunk_text_tokenwise (with_encoder special_token_encoder)
         (lit "<|endoftext|>") 500 50 "gpt2" fuel
       = Some (Raise (ValueError "disallowed special token '<|endoftext|>'")).
Proof.
  split.
  - apply (chunkers_errors (with_encoder special_token_encoder) "gpt2"
             (lit "<|endoftext|>") 0 50).
    left. lia.
  - destruct (chunkers_errors (with_encoder special_token_encoder) "gpt2"
                (lit "<|endoftext|>") 500 50) as (_ & _ & _ & _ & Henc).
    apply (Henc ltac:(split; lia) special_token_encoder); reflexivity.
Defined.

(** C5 as stated fails in the encoder branch: [encoder.encode(text)] is
    called outside any [try], so an encoder that refuses the text makes the
    token chunker raise with valid arguments. *)
Lemma chunkers_raise_iff_invalid_counterexample :
  valid_args 500 50
  /\ _try_get_tokenizer (with_encoder special_token_encoder) "gpt2"
     = Some special_token_encoder
  /\ forall fuel,
       chunk_text_tokenwise (with_encoder special_token_encoder)
         (lit "<|endoftext|>") 500 50 "gpt2" fuel
       = Some (Raise (ValueError "disallowed special token '<|endoftext|>'")).
Proof.
  split; [split; lia|]. split; [reflexivity|]. intros fuel. reflexivity.
Qed.

(** ** Short and empty texts *)

(** C7: with valid arguments the empty text gives no chunk, in all three
    chunkers; for the encoder branch this needs the encoder to return no
    token for the empty text. *)
Theorem empty_text_no_chunks (env : tiktoken_env) (name : string)
    (max_size overlap : Z) :
  valid_args max_size overlap ->
  (forall e, _try_get_tokenizer env name = Some e -> encode e [] = inr []) ->
  returns (chunk_text_tokenwise env [] max_size overlap name) (Return [])
  /\ returns (chunk_text_sentencewise [] max_size overlap) (Return [])
  /\ returns (chunk_text_charwise [] max_size overlap) (Return []).
Proof.
  intros Hv Henc. split; [|split]; exists 1%nat.
  - rewrite tokenwise_valid by assumption.
    destruct (_try_get_tokenizer env name) as [e|] eqn:Hres.
    + now rewrite (Henc e eq_refl).
    + reflexivity.
  - now rewrite sentencewise_valid by assumption.
  - now rewrite charwise_valid by assumption.
Qed.

Lemma empty_text_no_chunks_witness :
  returns (chunk_text_tokenwise (with_encoder codepoint_encoder) [] 500 50
             "gpt2") (Return [])
  /\ returns (chunk_text_sentencewise [] 500 50) (Return [])
  /\ returns (chunk_text_charwise [] 500 50) (Return []).
Proof.
  apply (empty_text_no_chunks (with_encoder codepoint_encoder) "gpt2" 500 50).
  - split; lia.
  - intros e H. injection H as <-. reflexivity.
Defined.

(** C6 (as amended): a text that fits in one chunk gives exactly one chunk
    - in [chunk_text_charwise] when it is not empty;
    - in [chunk_text_sentencewise] when it holds a character that is not
      whitespace: the chunk is its sentences joined by single spaces;
    - in [chunk_text_tokenwise] when it has at least one token and no more
      than [max_tokens]: the chunk is the rendering of all its tokens, and
      if [encoder.decode] raises instead the call raises the same; without
      an encoder a character that is not whitespace makes a token. *)
Theorem short_text_one_chunk (env : tiktoken_env) (name : string)
    (text : str) (max_size overlap : Z) :
  valid_args max_size overlap ->
  (text <> [] -> len text <= max_size ->
   returns (chunk_text_charwise text max_size overlap) (Return [text]))
  /\ (Exists (fun c => isspace c = false) text -> len text <= max_size ->
      returns (chunk_text_sentencewise text max_size overlap)
              (Return [join space (split_sentences text)]))
  /\ (0 < token_count env name text <= max_size ->
      match token_window env name text 0 (token_count env name text) with
      | inr c =>
          returns (chunk_text_tokenwise env text max_size overlap name)
                  (Return [c])
      | inl e =>
          returns (chunk_text_tokenwise env text max_size overlap name)
                  (Raise e)
      end)
  /\ (Exists (fun c => isspace c = false) text ->
      _try_get_tokenizer env name = None ->
      0 < token_count env name text).
Proof.
  intros Hv. pose proof Hv as [Hmax Hov]. split; [|split; [|split]].
  - intros Hne Hfit.
    destruct (charwise_returns text max_size overlap Hv) as [cs [Hcs Hrun]].
    exists (S (length text)). rewrite Hrun by lia.
    now rewrite (windows_from_fit _ text max_size overlap cs Hne Hfit Hcs).
  - intros Hns Hfit. exists (S (length (split_sentences text))).
    rewrite sentencewise_valid by assumption.
    rewrite sentence_loop_fits; [reflexivity| | | |lia].
    + apply split_sentences_tidy.
    + now apply split_sentences_nonempty.
    + rewrite len_join by now apply split_sentences_nonempty.
      pose proof (total_len_split_sentences text). lia.
  - unfold token_count, token_window. intros Hfit.
    destruct (_try_get_tokenizer env name) as [e|] eqn:Hres.
    + destruct (encode e text) as [x|tokens] eqn:Henc; [lia|].
      rewrite slice_all.
      destruct (decode e tokens) as [x|c] eqn:Hdec; exists 1%nat;
        rewrite tokenwise_valid, Hres, Henc by assumption.
      * now apply encoder_windows_fit_raise.
      * now apply encoder_windows_fit.
    + destruct (windows_returns (join space) (split text) max_size overlap
                  Hmax) as [cs [Hcs Hrun]].
      rewrite slice_all. exists (S (length (split text))).
      rewrite tokenwise_valid, Hres, Hrun by (assumption || lia).
      rewrite (windows_from_fit (join space) (split text) max_size overlap
                 cs); [reflexivity| |lia|assumption].
      intros E. rewrite E in Hfit. change (len (@nil str)) with 0 in Hfit. lia.
  - intros Hns Hres. unfold token_count. rewrite Hres.
    pose proof (split_words_nonempty text [] (or_intror Hns)) as Hne.
    fold (split text) in Hne. unfold len.
    destruct (split text); [congruence|simpl; lia].
Qed.

Lemma short_text_one_chunk_witness :
  returns (chunk_text_charwise (lit "A.  B.") 10 3) (Return [lit "A.  B."])
  /\ returns (chunk_text_sentencewise (lit "A.  B.") 10 3)
             (Return [join space (split_sentences (lit "A.  B."))])
  /\ exists c,
       returns (chunk_text_tokenwise no_tiktoken (lit "A.  B.") 10 3 "gpt2")
               (Return [c]).
Proof.
  destruct (short_text_one_chunk no_tiktoken "gpt2" (lit "A.  B.") 10 3)
    as (Hc & Hs & Ht & Hw).
  - split; lia.
  - split; [|split].
    + apply Hc; [discriminate|vm_compute; discriminate].
    + apply Hs; [|vm_compute; discriminate].
      apply Exists_cons_hd. reflexivity.
    + exists (join space (split (lit "A.  B."))).
      apply Ht. vm_compute. split; [reflexivity|discriminate].
Defined.

(** C6 as stated fails on a text of whitespace only: it is not empty and
    fits in one chunk, yet it has no sentence and no word, and the result
    is empty. *)
Lemma short_text_one_chunk_counterexample :
  lit "   " <> [] /\ len (lit "   ") <= 5 /\ valid_args 5 0
  /\ returns (chunk_text_sentencewise (lit "   ") 5 0) (Return [])
  /\ returns (chunk_text_tokenwise no_tiktoken (lit "   ") 5 0 "gpt2")
             (Return []).
Proof.
  split; [discriminate|]. split; [vm_compute; discriminate|].
  split; [split; lia|]. split; exists 1%nat; vm_compute; reflexivity.
Qed.

(** ** Whitespace tokens *)

(** C9: without an external tokenizer, ["a b c d e"] in windows of two
    words without overlap is [["a b"; "c d"; "e"]]. *)
Theorem tokenwise_fallback_example (env : tiktoken_env) (name : string) :
  _try_get_tokenizer env name = None ->
  returns (chunk_text_tokenwise env (lit "a b c d e") 2 0 name)
          (Return [lit "a b"; lit "c d"; lit "e"]).
Proof.
  intros Hres. exists 3%nat.
  rewrite tokenwise_valid by (split; lia). rewrite Hres.
  vm_compute. reflexivity.
Qed.

Lemma tokenwise_fallback_example_witness :
  returns (chunk_text_tokenwise unknown_encoding (lit "a b c d e") 2 0 "gpt2")
          (Return [lit "a b"; lit "c d"; lit "e"]).
Proof.
  apply (tokenwise_fallback_example unknown_encoding "gpt2"). reflexivity.
Defined.

(** C10: without an external tokenizer every chunk is a non-empty run of
    consecutive words of [text.split()] joined by single spaces; so a chunk
    never begins or ends with whitespace and holds no whitespace but single
    U+0020 characters between words, whatever whitespace the text had. *)
Theorem tokenwise_fallback_chunks (env : tiktoken_env) (name : string)
    (text : str) (max_tokens overlap : Z) :
  valid_args max_tokens overlap ->
  _try_get_tokenizer env name = None ->
  exists cs,
    returns (chunk_text_tokenwise env text max_tokens overlap name) (Return cs)
    /\ Forall (fun c =>
         (exists a b, 0 <= a < b /\ b <= len (split text)
                      /\ c = join space (slice (split text) a b))
         /\ single_spaced c = true) cs.
Proof.
  intros Hv Hres. pose proof Hv as [Hmax Hov].
  destruct (windows_returns (join space) (split text) max_tokens overlap Hmax)
    as [cs [Hcs Hrun]].
  exists cs. split.
  - exists (S (length (split text))).
    rewrite tokenwise_valid, Hres, Hrun by (assumption || lia). reflexivity.
  - pose proof (windows_from_runs _ _ _ _ 0 cs Hcs ltac:(lia) Hmax) as Hruns.
    apply Forall_impl with (2 := Hruns).
    intros c (a & b & Hab & Hb & _ & ->). split.
    + exists a, b. repeat split; lia || reflexivity.
    + apply single_spaced_join.
      * intros E. apply (f_equal len) in E.
        rewrite len_slice in E by lia. change (len (@nil str)) with 0 in E.
        lia.
      * apply Forall_slice, split_wordlike.
Qed.

Lemma tokenwise_fallback_chunks_witness :
  exists cs,
    returns (chunk_text_tokenwise no_tiktoken [32; 97; 9; 32; 98; 10]%N 5 0
               "gpt2") (Return cs)
    /\ Forall (fun c =>
         (exists a b, 0 <= a < b
                      /\ b <= len (split [32; 97; 9; 32; 98; 10]%N)
                      /\ c = join space
                               (slice (split [32; 97; 9; 32; 98; 10]%N) a b))
         /\ single_spaced c = true) cs.
Proof.
  apply (tokenwise_fallback_chunks no_tiktoken "gpt2"
           [32; 97; 9; 32; 98; 10]%N 5 0).
  - split; lia.
  - reflexivity.
Defined.

(** Whitespace is normalised even when the whole text is one chunk:
    [" a\t b\n"] comes back as ["a b"]. *)
Example tokenwise_fallback_normalises :
  chunk_text_tokenwise no_tiktoken [32; 97; 9; 32; 98; 10]%N 5 0 "gpt2" 1
  = Some (Return [lit "a b"]).
Proof. vm_compute. reflexivity. Qed.

(** ** Determinism: the fuel does not change what a call returns *)

Lemma returns_functional {A : Type} (call : nat -> option A) (r r' : A) :
  fuel_monotone call -> returns call r -> returns call r' -> r = r'.
Proof.
  intros Hmono [f Hf] [f' Hf'].
  apply (Hmono f (Nat.max f f')) in Hf; [|lia].
  apply (Hmono f' (Nat.max f f')) in Hf'; [|lia].
  congruence.
Qed.

Lemma option_map_fuel_monotone {A B : Type} (k : A -> B)
    (call : nat -> option A) :
  fuel_monotone call -> fuel_monotone (fun fuel => option_map k (call fuel)).
Proof.
  intros Hmono f f' r Hle H.
  destruct (call f) as [a|] eqn:E; [|discriminate].
  now rewrite (Hmono f f' a Hle E).
Qed.

Lemma while_fuel_monotone {St : Type} (cond : St -> bool)
    (body : St -> ctl St) (s : St) :
  fuel_monotone (fun fuel => while cond body fuel s).
Proof. intros f f' r Hle H. exact (while_fuel_mono _ _ f f' s r Hle H). Qed.

Lemma windows_fuel_monotone {U : Type} (render : list U -> str)
    (units : list U) (max_size overlap : Z) :
  fuel_monotone (windows render units max_size overlap).
Proof. apply option_map_fuel_monotone, while_fuel_monotone. Qed.

Lemma sentence_loop_fuel_monotone (sentences : list str)
    (max_chars overlap_chars : Z) :
  fuel_monotone (sentence_loop sentences max_chars overlap_chars).
Proof.
  intros f f' r Hle H. unfold sentence_loop in *.
  destruct (while _ _ f _) as [st|] eqn:E; [|discriminate].
  now rewrite (while_fuel_mono _ _ f f' _ st Hle E).
Qed.

Lemma charwise_fuel_monotone (text : str) (max_chars overlap_chars : Z) :
  fuel_monotone (chunk_text_charwise text max_chars overlap_chars).
Proof.
  unfold chunk_text_charwise.
  destruct (max_chars <=? 0); [easy|]. destruct (overlap_chars <? 0); [easy|].
  apply option_map_fuel_monotone, windows_fuel_monotone.
Qed.

Lemma sentencewise_fuel_monotone (text : str) (max_chars overlap_chars : Z) :
  fuel_monotone (chunk_text_sentencewise text max_chars overlap_chars).
Proof.
  unfold chunk_text_sentencewise.
  destruct (max_chars <=? 0); [easy|]. destruct (overlap_chars <? 0); [easy|].
  apply option_map_fuel_monotone, sentence_loop_fuel_monotone.
Qed.

Lemma tokenwise_fuel_monotone (env : tiktoken_env) (text : str)
    (max_tokens overlap : Z) (name : string) :
  fuel_monotone (chunk_text_tokenwise env text max_tokens overlap name).
Proof.
  unfold chunk_text_tokenwise.
  destruct (max_tokens <=? 0); [easy|]. destruct (overlap <? 0); [easy|].
  destruct (_try_get_tokenizer env name) as [e|].
  - destruct (encode e text); [easy|apply encoder_windows_fuel_monotone].
  - apply option_map_fuel_monotone, windows_fuel_monotone.
Qed.

(** ** What does hold of the sentence loop *)

(** X14: a text of one sentence comes back as that sentence alone, however
    long it is and whatever the overlap. *)
Lemma sentencewise_single_sentence (text s : str)
    (max_chars overlap_chars : Z) :
  valid_args max_chars overlap_chars ->
  split_sentences text = [s] ->
  returns (chunk_text_sentencewise text max_chars overlap_chars) (Return [s]).
Proof.
  intros Hv Hs. exists 2%nat. rewrite sentencewise_valid, Hs by assumption.
  rewrite sentence_loop_single; [reflexivity| |lia].
  pose proof (split_sentences_tidy text) as H. rewrite Hs in H.
  inversion H as [|? ? [Hne _] _]. assumption.
Qed.

(** X11: without overlap the call returns, and every sentence longer than
    [max_chars] is one of the chunks, whole and on its own. *)
Lemma sentencewise_no_overlap_returns (text : str) (max_chars : Z) :
  0 < max_chars ->
  exists cs,
    returns (chunk_text_sentencewise text max_chars 0) (Return cs)
    /\ forall s, In s (split_sentences text) -> max_chars < len s -> In s cs.
Proof.
  intros Hmax.
  destruct (sentence_loop_no_overlap_total (split_sentences text) max_chars)
    as [cs Hcs].
  exists cs. split.
  - exists (S (S (2 * length (split_sentences text)))).
    rewrite sentencewise_valid by (split; lia).
    rewrite Hcs by lia. reflexivity.
  - apply (sentence_loop_no_overlap_oversized (split_sentences text) max_chars
             Hmax (S (S (2 * length (split_sentences text))))).
    apply Hcs. lia.
Qed.

(** * Further properties of the chunkers *)

(** ** The window loop in closed form *)

Lemma while_ext {St : Type} (cond : St -> bool) (body body' : St -> ctl St) :
  (forall s, body s = body' s) ->
  forall fuel s, while cond body fuel s = while cond body' fuel s.
Proof.
  intros Hext. induction fuel as [|fuel IH]; intros s; [reflexivity|].
  simpl. rewrite <- Hext. destruct (cond s); [|reflexivity].
  destruct (body s); [apply IH|reflexivity].
Qed.

(** An overlap of [max_size - 1] or more is cut down to [max_size - 1] by
    the progress guard. *)
Lemma windows_clamp_overlap {U : Type} (render : list U -> str)
    (units : list U) (max_size overlap : Z) (fuel : nat) :
  windows render units max_size overlap fuel
  = windows render units max_size (Z.min overlap (max_size - 1)) fuel.
Proof.
  unfold windows, window_loop. f_equal. apply while_ext.
  intros st. unfold window_body.
  replace (Z.max (Z.min (start st + max_size) (len units)
                  - Z.min overlap (max_size - 1))
                 (Z.min (start st + max_size) (len units) - max_size + 1))
    with (Z.max (Z.min (start st + max_size) (len units) - overlap)
                (Z.min (start st + max_size) (len units) - max_size + 1))
    by lia.
  reflexivity.
Qed.

Lemma encoder_windows_clamp_overlap (decode_ : list Z -> exn + str)
    (tokens : list Z) (max_tokens overlap : Z) (fuel : nat) :
  encoder_windows decode_ tokens max_tokens overlap fuel
  = encoder_windows decode_ tokens max_tokens
      (Z.min overlap (max_tokens - 1)) fuel.
Proof.
  unfold encoder_windows.
  rewrite (while_ext _ _
             (encoder_body decode_ tokens max_tokens
                (Z.min overlap (max_tokens - 1)))); [reflexivity|].
  intros st. unfold encoder_body.
  replace (Z.max (Z.min (e_start st + max_tokens) (len tokens)
                  - Z.min overlap (max_tokens - 1))
                 (Z.min (e_start st + max_tokens) (len tokens)
                  - max_tokens + 1))
    with (Z.max (Z.min (e_start st + max_tokens) (len tokens) - overlap)
                (Z.min (e_start st + max_tokens) (len tokens)
                 - max_tokens + 1))
    by lia.
  reflexivity.
Qed.

Section WindowClosedForm.
Context {U : Type}.
Variable render : list U -> str.
Variable units : list U.
Variables max_size overlap : Z.
Hypothesis max_size_pos : 0 < max_size.
Hypothesis overlap_nonneg : 0 <= overlap.

Local Abbreviation from := (windows_from render units max_size overlap).
Local Abbreviation step := (stride max_size overlap).

Lemma stride_pos : 0 < step.
Proof. unfold stride. lia. Qed.

Lemma stride_next (s : Z) :
  Z.max (s + max_size - overlap) (s + 1) = s + step.
Proof. unfold stride. lia. Qed.

(** The [k]-th window from [s] starts [k] strides further. *)
Lemma windows_from_nth (s : Z) (ws : list str) :
  from s ws ->
  forall (k : nat) (c : str),
    nth_error ws k = Some c ->
    s + Z.of_nat k * step < len units /\
    c = render (slice units (s + Z.of_nat k * step)
                  (Z.min (s + Z.of_nat k * step + max_size) (len units))).
Proof.
  intros H. induction H as [s Hd|s Hlt Hl|s rest Hfull Hrest IH]; intros k c Hk.
  - destruct k; discriminate.
  - destruct k as [|k]; [|destruct k; discriminate].
    injection Hk as <-. rewrite Z.mul_0_l, Z.add_0_r.
    split; [assumption|]. now rewrite Z.min_r by lia.
  - destruct k as [|k].
    + injection Hk as <-. rewrite Z.mul_0_l, Z.add_0_r.
      split; [lia|]. now rewrite Z.min_l by lia.
    + simpl in Hk. rewrite stride_next in IH.
      destruct (IH k c Hk) as [Hin Hc].
      replace (s + Z.of_nat (S k) * step) with (s + step + Z.of_nat k * step)
        by (rewrite Nat2Z.inj_succ; ring).
      split; assumption.
Qed.

(** Full windows but for the last, which is not empty. *)
Lemma windows_from_sizes (s : Z) (ws : list str) :
  from s ws -> 0 <= s ->
  forall (k : nat) (c : str),
    nth_error ws k = Some c ->
    exists a b, 0 <= a < b /\ b <= len units /\ b - a <= max_size
                /\ c = render (slice units a b)
                /\ (nth_error ws (S k) <> None -> b - a = max_size).
Proof.
  intros H. induction H as [s Hd|s Hlt Hl|s rest Hfull Hrest IH];
    intros Hs k c Hk.
  - destruct k; discriminate.
  - destruct k as [|k]; [|destruct k; discriminate].
    injection Hk as <-. exists s, (len units).
    repeat split; try lia. intros Hnext. now destruct Hnext.
  - destruct k as [|k].
    + injection Hk as <-. exists s, (s + max_size). repeat split; lia.
    + simpl in Hk. apply (IH ltac:(lia) k c Hk).
Qed.

(** The number of windows from a position before the end. *)
Lemma windows_from_count (s : Z) (ws : list str) :
  from s ws -> s < len units ->
  len ws = 1 + ceil_div (Z.max 0 (len units - s - max_size)) step.
Proof.
  pose proof stride_pos as Hstep.
  intros H. induction H as [s Hd|s Hlt Hl|s rest Hfull Hrest IH]; intros Hs.
  - lia.
  - rewrite Z.max_l by lia. now rewrite ceil_div_0.
  - rewrite stride_next in IH.
    assert (Hnext : s + step < len units) by (unfold stride; lia).
    rewrite len_cons, (IH Hnext).
    rewrite (Z.max_r 0 (len units - s - max_size)) by lia.
    rewrite (ceil_div_step (len units - s - max_size)) by lia.
    replace (len units - (s + step) - max_size)
      with (len units - s - max_size - step) by lia.
    reflexivity.
Qed.

(** Never more windows than units left. *)
Lemma windows_from_at_most (s : Z) (ws : list str) :
  from s ws -> len ws <= Z.max 0 (len units - s).
Proof.
  intros H. induction H as [s Hd|s Hlt Hl|s rest Hfull Hrest IH].
  - change (len (@nil str)) with 0. lia.
  - change (len [_]) with 1. lia.
  - rewrite len_cons. lia.
Qed.
End WindowClosedForm.

(** ** [chunk_text_charwise], all valid arguments *)

(** X1: every chunk of [chunk_text_charwise] is between 1 and [max_chars]
    characters long, and every chunk that has a successor is exactly
    [max_chars] long. *)
Theorem charwise_chunk_lengths (text : str) (max_chars overlap_chars : Z)
    (cs : list str) (k : nat) (c : str) :
  valid_args max_chars overlap_chars ->
  returns (chunk_text_charwise text max_chars overlap_chars) (Return cs) ->
  nth_error cs k = Some c ->
  0 < len c <= max_chars
  /\ (nth_error cs (S k) <> None -> len c = max_chars).
Proof.
  intros Hv Hret Hk. pose proof Hv as [Hmax Hov].
  apply charwise_sound in Hret; [|assumption].
  destruct (windows_from_sizes _ _ _ _ Hmax 0 cs Hret ltac:(lia) k c Hk)
    as (a & b & Hab & Hb & Hsize & -> & Hfull).
  rewrite len_slice by lia. split; [lia|exact Hfull].
Qed.

Lemma charwise_chunk_lengths_witness :
  0 < len (lit "defgh") <= 5
  /\ (nth_error [lit "abcde"; lit "defgh"; lit "ghij"] 2 <> None ->
      len (lit "defgh") = 5).
Proof.
  apply (charwise_chunk_lengths (lit "abcdefghij") 5 2
           [lit "abcde"; lit "defgh"; lit "ghij"] 1 (lit "defgh")).
  - split; lia.
  - exists 3%nat. vm_compute. reflexivity.
  - reflexivity.
Defined.

(** X2: for all valid arguments [chunk_text_charwise] returns the windows
    [text[k * stride : k * stride + max_chars]] with
    [stride = max (max_chars - overlap_chars, 1)], and there are
    [1 + ceil (max (0, len text - max_chars) / stride)] of them when the
    text is not empty. *)
Theorem charwise_windows (text : str) (max_chars overlap_chars : Z) :
  valid_args max_chars overlap_chars ->
  exists cs,
    returns (chunk_text_charwise text max_chars overlap_chars) (Return cs)
    /\ (text <> [] ->
        len cs = 1 + ceil_div (Z.max 0 (len text - max_chars))
                              (stride max_chars overlap_chars))
    /\ forall (k : nat) (c : str),
         nth_error cs k = Some c ->
         c = slice text (Z.of_nat k * stride max_chars overlap_chars)
               (Z.min (Z.of_nat k * stride max_chars overlap_chars + max_chars)
                      (len text)).
Proof.
  intros Hv. pose proof Hv as [Hmax Hov].
  destruct (charwise_returns text max_chars overlap_chars Hv)
    as [cs [Hcs Hrun]].
  exists cs. split; [|split].
  - exists (S (length text)). apply Hrun. lia.
  - intros Hne.
    assert (Hlen : 0 < len text).
    { unfold len. destruct text; simpl; [congruence|lia]. }
    rewrite (windows_from_count _ _ _ _ Hmax Hov 0 cs Hcs Hlen).
    now rewrite Z.sub_0_r.
  - intros k c Hk.
    destruct (windows_from_nth _ _ _ _ Hmax 0 cs Hcs k c Hk) as [_ Hc].
    exact Hc.
Qed.

Lemma charwise_windows_witness :
  exists cs,
    returns (chunk_text_charwise (lit "abcdefg") 3 7) (Return cs)
    /\ (lit "abcdefg" <> [] ->
        len cs = 1 + ceil_div (Z.max 0 (len (lit "abcdefg") - 3)) (stride 3 7))
    /\ forall (k : nat) (c : str),
         nth_error cs k = Some c ->
         c = slice (lit "abcdefg") (Z.of_nat k * stride 3 7)
               (Z.min (Z.of_nat k * stride 3 7 + 3) (len (lit "abcdefg"))).
Proof. apply (charwise_windows (lit "abcdefg") 3 7). split; lia. Defined.

(** X3: an overlap of [max - 1] or more has the effect of [max - 1]: the
    character and the token chunker return the same with [overlap] as with
    [min (overlap, max - 1)]. *)
Theorem overlap_is_clamped (env : tiktoken_env) (name : string) (text : str)
    (max_size overlap : Z) (fuel : nat) :
  valid_args max_size overlap ->
  chunk_text_charwise text max_size overlap fuel
  = chunk_text_charwise text max_size (Z.min overlap (max_size - 1)) fuel
  /\ chunk_text_tokenwise env text max_size overlap name fuel
     = chunk_text_tokenwise env text max_size (Z.min overlap (max_size - 1))
         name fuel.
Proof.
  intros Hv. pose proof Hv as [Hmax Hov].
  assert (Hv' : valid_args max_size (Z.min overlap (max_size - 1)))
    by (split; lia).
  split.
  - rewrite !charwise_valid by assumption.
    now rewrite windows_clamp_overlap.
  - rewrite !tokenwise_valid by assumption.
    destruct (_try_get_tokenizer env name) as [e|].
    + destruct (encode e text); [reflexivity|].
      apply encoder_windows_clamp_overlap.
    + now rewrite windows_clamp_overlap.
Qed.

Lemma overlap_is_clamped_witness :
  chunk_text_charwise (lit "abcdefg") 3 7 10
  = chunk_text_charwise (lit "abcdefg") 3 (Z.min 7 (3 - 1)) 10
  /\ chunk_text_tokenwise no_tiktoken (lit "abcdefg") 3 7 "gpt2" 10
     = chunk_text_tokenwise no_tiktoken (lit "abcdefg") 3 (Z.min 7 (3 - 1))
         "gpt2" 10.
Proof.
  apply (overlap_is_clamped no_tiktoken "gpt2" (lit "abcdefg") 3 7 10).
  split; lia.
Defined.

(** X4: for all valid arguments the chunks of [chunk_text_charwise] give
    the text back when every chunk but the last loses its trailing
    [min (overlap_chars, max_chars - 1)] characters. *)
Theorem charwise_roundtrip_clamped (text : str) (max_chars overlap_chars : Z) :
  valid_args max_chars overlap_chars ->
  exists cs,
    returns (chunk_text_charwise text max_chars overlap_chars) (Return cs)
    /\ reconstruct (Z.min overlap_chars (max_chars - 1)) cs = text.
Proof.
  intros Hv. pose proof Hv as [Hmax Hov].
  set (oc := Z.min overlap_chars (max_chars - 1)).
  assert (Hv' : valid_args max_chars oc) by (split; unfold oc; lia).
  destruct (charwise_returns text max_chars oc Hv') as [cs [Hcs Hrun]].
  exists cs. split.
  - exists (S (length text)).
    rewrite charwise_valid, windows_clamp_overlap by assumption.
    fold oc. rewrite <- charwise_valid by assumption. apply Hrun. lia.
  - rewrite (reconstruct_from text max_chars oc 0 cs); [reflexivity| |assumption|lia].
    unfold oc. lia.
Qed.

Lemma charwise_roundtrip_clamped_witness :
  exists cs,
    returns (chunk_text_charwise (lit "abcdefg") 3 7) (Return cs)
    /\ reconstruct (Z.min 7 (3 - 1)) cs = lit "abcdefg".
Proof. apply (charwise_roundtrip_clamped (lit "abcdefg") 3 7). split; lia. Defined.

(** ** [chunk_text_tokenwise], all valid arguments *)

(** [str.split] undoes [" ".join] on words. *)
Lemma split_words_word (w rest word : str) :
  Forall (fun c => isspace c = false) w ->
  split_words word (w ++ rest) = split_words (rev w ++ word) rest.
Proof.
  intros Hw. revert word. induction Hw as [|c w Hc Hw IH]; intros word.
  - reflexivity.
  - cbn [app split_words]. rewrite Hc, IH.
    simpl rev. now rewrite <- app_assoc.
Qed.

Lemma split_join (ws : list str) :
  Forall wordlike ws -> split (join space ws) = ws.
Proof.
  unfold split. induction ws as [|w rest IH]; intros Hall; [reflexivity|].
  inversion Hall as [|? ? [Hne Hw] Hrest]; subst.
  assert (Hrev : truthy (rev w) = true).
  { apply truthy_true. intros E. apply (f_equal (@rev char)) in E.
    rewrite rev_involutive in E. now apply Hne. }
  destruct rest as [|q rest].
  - simpl join. rewrite <- (app_nil_r w) at 1.
    rewrite split_words_word, app_nil_r by assumption.
    cbn [split_words]. now rewrite Hrev, rev_involutive.
  - change (join space (w :: q :: rest))
      with (w ++ 32%N :: join space (q :: rest)).
    rewrite split_words_word, app_nil_r by assumption.
    cbn [split_words]. change (isspace 32%N) with true. cbv iota.
    rewrite Hrev, rev_involutive. f_equal. now apply IH.
Qed.

Lemma tokenwise_sound (env : tiktoken_env) (name : string) (text : str)
    (max_tokens overlap : Z) (cs : list str) :
  valid_args max_tokens overlap ->
  _try_get_tokenizer env name = None ->
  returns (chunk_text_tokenwise env text max_tokens overlap name) (Return cs) ->
  windows_from (join space) (split text) max_tokens overlap 0 cs.
Proof.
  intros Hv Hres [fuel Hrun].
  rewrite tokenwise_valid, Hres in Hrun by assumption.
  destruct (windows _ _ _ _ fuel) as [ws|] eqn:Hws; [|discriminate].
  injection Hrun as <-. exact (windows_sound _ _ _ _ _ _ Hws).
Qed.

(** X5: for all valid arguments [chunk_text_tokenwise] returns the windows
    of [max_tokens] units taken every
    [stride = max (max_tokens - overlap, 1)] units, without an encoder, and
    with one whenever [encoder.encode] returns the tokens and
    [encoder.decode] returns on every window of them: chunk [k] renders the
    units [k * stride] to [k * stride + max_tokens]; there is none without
    units, [1 + ceil (max (0, n - max_tokens) / stride)] for [n > 0] units,
    and never more than [n]. *)
Theorem tokenwise_windows (env : tiktoken_env) (name : string) (text : str)
    (max_tokens overlap : Z) :
  valid_args max_tokens overlap ->
  (forall e, _try_get_tokenizer env name = Some e ->
     exists tokens,
       encode e text = inr tokens
       /\ forall a b, 0 <= a < b -> b <= len tokens -> b - a <= max_tokens ->
                      exists c, decode e (slice tokens a b) = inr c) ->
  exists cs,
    returns (chunk_text_tokenwise env text max_tokens overlap name) (Return cs)
    /\ (token_count env name text = 0 -> cs = [])
    /\ (0 < token_count env name text ->
        len cs = 1 + ceil_div (Z.max 0 (token_count env name text - max_tokens))
                              (stride max_tokens overlap))
    /\ len cs <= token_count env name text
    /\ forall (k : nat) (c : str),
         nth_error cs k = Some c ->
         token_window env name text
           (Z.of_nat k * stride max_tokens overlap)
           (Z.min (Z.of_nat k * stride max_tokens overlap + max_tokens)
                  (token_count env name text))
         = inr c.
Proof.
  intros Hv Henc. pose proof Hv as [Hmax Hov].
  pose proof (stride_pos max_tokens overlap) as Hstride.
  assert (Hshape :
    forall (U : Type) (render : list U -> str) (units : list U) (cs : list str),
      windows_from render units max_tokens overlap 0 cs ->
      (len units = 0 -> cs = [])
      /\ (0 < len units ->
          len cs = 1 + ceil_div (Z.max 0 (len units - max_tokens))
                                (stride max_tokens overlap))
      /\ len cs <= len units
      /\ forall (k : nat) (c : str),
           nth_error cs k = Some c ->
           0 <= Z.of_nat k * stride max_tokens overlap < len units
           /\ c = render (slice units (Z.of_nat k * stride max_tokens overlap)
                            (Z.min (Z.of_nat k * stride max_tokens overlap
                                    + max_tokens) (len units)))).
  { intros U render units cs Hcs. repeat split.
    - intros Hz. inversion Hcs; subst; [reflexivity|lia|lia].
    - intros Hpos.
      rewrite (windows_from_count _ _ _ _ Hmax Hov 0 cs Hcs Hpos).
      now rewrite Z.sub_0_r.
    - pose proof (windows_from_at_most _ _ _ _ Hmax 0 cs Hcs).
      pose proof (len_nonneg units). lia.
    - nia.
    - now destruct (windows_from_nth _ _ _ _ Hmax 0 cs Hcs k c H).
    - now destruct (windows_from_nth _ _ _ _ Hmax 0 cs Hcs k c H). }
  unfold token_count, token_window.
  destruct (_try_get_tokenizer env name) as [e|] eqn:Hres.
  - destruct (Henc e eq_refl) as (tokens & Hencode & Hdec).
    rewrite Hencode.
    set (render := fun w => match decode e w with inr c => c | inl _ => [] end).
    assert (Hrender : forall a b,
               0 <= a < b -> b <= len tokens -> b - a <= max_tokens ->
               decode e (slice tokens a b) = inr (render (slice tokens a b))).
    { intros a b Ha Hb Hab. unfold render.
      now destruct (Hdec a b Ha Hb Hab) as [c ->]. }
    destruct (windows_returns render tokens max_tokens overlap Hmax)
      as [cs [Hcs Hrun]].
    destruct (Hshape _ render tokens cs Hcs) as (Hz & Hcount & Hle & Hnth).
    exists cs. split; [|repeat split; try assumption].
    + exists (S (length tokens)).
      rewrite tokenwise_valid, Hres, Hencode by assumption.
      rewrite (encoder_windows_simulates _ _ _ _ render _ Hmax Hrender).
      now rewrite Hrun by lia.
    + intros k c Hk. destruct (Hnth k c Hk) as [Hin ->].
      apply Hrender; lia.
  - destruct (windows_returns (join space) (split text) max_tokens overlap
                Hmax) as [cs [Hcs Hrun]].
    destruct (Hshape _ (join space) (split text) cs Hcs)
      as (Hz & Hcount & Hle & Hnth).
    exists cs. split; [|repeat split; try assumption].
    + exists (S (length (split text))).
      rewrite tokenwise_valid, Hres by assumption. now rewrite Hrun by lia.
    + intros k c Hk. now destruct (Hnth k c Hk) as [_ ->].
Qed.

Lemma tokenwise_windows_witness :
  exists cs,
    returns (chunk_text_tokenwise (with_encoder codepoint_encoder)
               (lit "abcdefg") 3 1 "gpt2") (Return cs)
    /\ (token_count (with_encoder codepoint_encoder) "gpt2" (lit "abcdefg") = 0
        -> cs = [])
    /\ (0 < token_count (with_encoder codepoint_encoder) "gpt2" (lit "abcdefg")
        -> len cs
           = 1 + ceil_div
                   (Z.max 0 (token_count (with_encoder codepoint_encoder)
                               "gpt2" (lit "abcdefg") - 3))
                   (stride 3 1))
    /\ len cs <= token_count (with_encoder codepoint_encoder) "gpt2"
                   (lit "abcdefg")
    /\ forall (k : nat) (c : str),
         nth_error cs k = Some c ->
         token_window (with_encoder codepoint_encoder) "gpt2"
           (lit "abcdefg") (Z.of_nat k * stride 3 1)
           (Z.min (Z.of_nat k * stride 3 1 + 3)
                  (token_count (with_encoder codepoint_encoder) "gpt2"
                     (lit "abcdefg")))
         = inr c.
Proof.
  apply (tokenwise_windows (with_encoder codepoint_encoder) "gpt2"
           (lit "abcdefg") 3 1).
  - split; lia.
  - intros e H. injection H as <-. exists (map Z.of_N (lit "abcdefg")).
    split; [reflexivity|]. intros a b _ _ _. eexists. reflexivity.
Defined.

(** X6: without an encoder every chunk splits back into the words of its
    window: between 1 and [max_tokens] words, exactly [max_tokens] for a
    chunk that has a successor, and joining them by single spaces gives the
    chunk again. *)
Theorem tokenwise_fallback_words (env : tiktoken_env) (name : string)
    (text : str) (max_tokens overlap : Z) (cs : list str) (k : nat) (c : str) :
  valid_args max_tokens overlap ->
  _try_get_tokenizer env name = None ->
  returns (chunk_text_tokenwise env text max_tokens overlap name) (Return cs) ->
  nth_error cs k = Some c ->
  0 < len (split c) <= max_tokens
  /\ (nth_error cs (S k) <> None -> len (split c) = max_tokens)
  /\ join space (split c) = c.
Proof.
  intros Hv Hres Hret Hk. pose proof Hv as [Hmax Hov].
  pose proof (tokenwise_sound env name text max_tokens overlap cs Hv Hres Hret)
    as Hcs.
  destruct (windows_from_sizes _ _ _ _ Hmax 0 cs Hcs ltac:(lia) k c Hk)
    as (a & b & Hab & Hb & Hsize & -> & Hfull).
  rewrite split_join by apply Forall_slice, split_wordlike.
  rewrite len_slice by lia. repeat split; lia || auto.
Qed.

Lemma tokenwise_fallback_words_witness :
  0 < len (split (lit "c d")) <= 2
  /\ (nth_error [lit "a b"; lit "c d"; lit "e"] 2 <> None ->
      len (split (lit "c d")) = 2)
  /\ join space (split (lit "c d")) = lit "c d".
Proof.
  apply (tokenwise_fallback_words no_tiktoken "gpt2" (lit "a b  c d e") 2 0
           [lit "a b"; lit "c d"; lit "e"] 1 (lit "c d")).
  - split; lia.
  - reflexivity.
  - exists 3%nat. vm_compute. reflexivity.
  - reflexivity.
Defined.

Lemma join_app (sep : str) (a b : list str) :
  a <> [] -> b <> [] -> join sep (a ++ b) = join sep a ++ sep ++ join sep b.
Proof.
  intros Ha Hb. induction a as [|x a IH]; [congruence|].
  destruct a as [|y a].
  - destruct b as [|z b]; [congruence|]. reflexivity.
  - change (join sep ((x :: y :: a) ++ b))
      with (x ++ sep ++ join sep ((y :: a) ++ b)).
    rewrite IH by discriminate.
    change (join sep (x :: y :: a)) with (x ++ sep ++ join sep (y :: a)).
    now rewrite <- !app_assoc.
Qed.

Lemma nonempty_of_len {A : Type} (l : list A) : 0 < len l -> l <> [].
Proof. intros H ->. change (len (@nil A)) with 0 in H. lia. Qed.

(** Without overlap the windows of words, joined, are the words from the
    start position on, joined. *)
Lemma join_windows_from (words : list str) (max_tokens : Z) (s : Z)
    (ws : list str) :
  0 < max_tokens ->
  windows_from (join space) words max_tokens 0 s ws -> 0 <= s ->
  join space ws = join space (skipn (Z.to_nat s) words).
Proof.
  intros Hmax H. induction H as [s Hd|s Hlt Hl|s rest Hfull Hrest IH]; intros Hs.
  - rewrite skipn_all2 by (unfold len in Hd; lia). reflexivity.
  - simpl. now rewrite slice_to_end by lia.
  - rewrite (Z.max_l (s + max_tokens - 0)) in * by lia.
    rewrite Z.sub_0_r in *.
    assert (Hne : rest <> []).
    { apply (windows_from_nonempty _ _ _ _ _ _ Hrest); lia. }
    destruct rest as [|c rest]; [congruence|].
    change (join space (slice words s (s + max_tokens))
            ++ space ++ join space (c :: rest)
            = join space (skipn (Z.to_nat s) words)).
    rewrite IH by lia.
    rewrite <- !slice_to_end by lia.
    rewrite <- join_app.
    + now rewrite slice_app by lia.
    + apply nonempty_of_len. rewrite len_slice by lia. lia.
    + apply nonempty_of_len. rewrite len_slice by lia. lia.
Qed.

(** X7: without an encoder and without overlap, the chunks joined by
    single spaces are the words of the text joined by single spaces: no
    word is lost, repeated or moved. *)
Theorem tokenwise_fallback_roundtrip (env : tiktoken_env) (name : string)
    (text : str) (max_tokens : Z) :
  0 < max_tokens ->
  _try_get_tokenizer env name = None ->
  exists cs,
    returns (chunk_text_tokenwise env text max_tokens 0 name) (Return cs)
    /\ join space cs = join space (split text).
Proof.
  intros Hmax Hres.
  assert (Hv : valid_args max_tokens 0) by (split; lia).
  destruct (tokenwise_returns env text max_tokens 0 name Hv Hres)
    as [cs Hrun].
  assert (Hret : returns (chunk_text_tokenwise env text max_tokens 0 name)
                         (Return cs)).
  { exists (S (length (split text))). apply Hrun. lia. }
  exists cs. split; [assumption|].
  pose proof (tokenwise_sound env name text max_tokens 0 cs Hv Hres Hret)
    as Hcs.
  now rewrite (join_windows_from (split text) max_tokens 0 cs Hmax Hcs).
Qed.

Lemma tokenwise_fallback_roundtrip_witness :
  exists cs,
    returns (chunk_text_tokenwise unknown_encoding (lit " a b  c d e ") 2 0
               "gpt2") (Return cs)
    /\ join space cs = join space (split (lit " a b  c d e ")).
Proof.
  apply (tokenwise_fallback_roundtrip unknown_encoding "gpt2"
           (lit " a b  c d e ") 2).
  - lia.
  - reflexivity.
Defined.

(** ** The sentence loop, step by step *)

Lemma tidy_nonspace (s : str) :
  tidy s -> Exists (fun c => isspace c = false) s.
Proof.
  intros [Hne [Hs _]]. destruct s as [|c s]; [congruence|].
  now apply Exists_cons_hd.
Qed.

Lemma reseed_tail (cur : str) (k : Z) :
  cur <> [] -> 0 < k ->
  slice_from cur (- k) <> [] /\ len (slice_from cur (- k)) <= k.
Proof.
  intros Hne Hk. unfold slice_from, clamp_index.
  assert (Hlen : 0 < len cur).
  { unfold len. destruct cur; simpl; [congruence|lia]. }
  destruct (Z.ltb_spec (- k) 0); [|lia].
  assert (Hl : len (skipn (Z.to_nat (Z.max (- k + len cur) 0)) cur)
               = Z.min (len cur) k).
  { unfold len in *. rewrite length_skipn. lia. }
  split; [|lia]. apply nonempty_of_len. lia.
Qed.

Lemma firstn_snoc_nth {A : Type} (l : list A) (k : nat) (d : A) :
  (k < length l)%nat -> firstn (S k) l = firstn k l ++ [nth k l d].
Proof.
  revert k. induction l as [|x l IH]; intros k Hk; [simpl in Hk; lia|].
  destruct k as [|k]; [reflexivity|].
  simpl in Hk. simpl. f_equal. apply IH. lia.
Qed.

Section SentenceSteps.
Variable sentences : list str.
Variables max_chars overlap_chars : Z.

Local Abbreviation cond := (sentence_cond sentences).
Local Abbreviation body := (sentence_body sentences max_chars overlap_chars).

(** One iteration either takes the sentence at hand into the buffer, or
    emits the buffer and reseeds it; it never leaves the loop. *)
Lemma sentence_body_cases (st st' : sentence_state) :
  body st = Continue st' ->
  let s := nth (Z.to_nat (i st)) sentences [] in
  (i st' = i st + 1 /\ out st' = out st /\
   ((current st = [] /\ current st' = s) \/
    (current st <> [] /\ len (current st) + 1 + len s <= max_chars /\
     current st' = strip (current st ++ space ++ s))))
  \/ (i st' = i st /\ current st <> [] /\
      max_chars < len (current st) + 1 + len s /\
      out st' = out st ++ [current st] /\
      current st' = (if overlap_chars >? 0
                     then slice_from (current st) (- overlap_chars) else [])).
Proof.
  destruct st as [k cur o]. unfold sentence_body. cbn [i current out].
  intros Hb. cbv zeta. set (s := nth (Z.to_nat k) sentences []) in *.
  destruct cur as [|c cur].
  - cbn [truthy negb] in Hb. rewrite orb_true_r in Hb.
    injection Hb as <-. left. cbn [i current out]. auto.
  - cbn [truthy negb] in Hb. rewrite orb_false_r in Hb.
    destruct (Z.leb_spec (len (c :: cur) + 1 + len s) max_chars);
      injection Hb as <-; cbn [i current out].
    + left. repeat split; try reflexivity. right.
      repeat split; (discriminate || assumption || reflexivity).
    + right. repeat split; (discriminate || assumption || reflexivity).
Qed.

Lemma sentence_body_continues (st st' : sentence_state) :
  body st = Break st' -> False.
Proof. unfold sentence_body. now destruct (_ || _). Qed.

Lemma sentence_body_total (st : sentence_state) :
  exists st', body st = Continue st'.
Proof. unfold sentence_body. destruct (_ || _); eauto. Qed.

Lemma sentence_loop_result (fuel : nat) (cs : list str) :
  sentence_loop sentences max_chars overlap_chars fuel = Some cs ->
  exists st,
    while cond body fuel {| i := 0; current := []; out := [] |} = Some st
    /\ cs = if truthy (current st) then out st ++ [current st] else out st.
Proof.
  unfold sentence_loop. destruct (while _ _ fuel _) as [st|]; [|discriminate].
  intros H. injection H as <-. now exists st.
Qed.

Hypothesis sentences_tidy : Forall tidy sentences.

Lemma sentence_at (k : Z) :
  0 <= k < len sentences ->
  In (nth (Z.to_nat k) sentences []) sentences
  /\ tidy (nth (Z.to_nat k) sentences []).
Proof.
  intros Hk.
  assert (Hin : In (nth (Z.to_nat k) sentences []) sentences).
  { apply nth_In. unfold len in Hk. lia. }
  split; [assumption|].
  now apply (proj1 (Forall_forall _ _) sentences_tidy).
Qed.

(** What is emitted is never empty, and is no longer than
    [max (max_chars, overlap_chars)] unless it is a whole sentence. *)
Lemma sentence_loop_chunks (fuel : nat) (cs : list str) :
  sentence_loop sentences max_chars overlap_chars fuel = Some cs ->
  Forall (fun c => c <> [] /\
                   (len c <= Z.max max_chars overlap_chars
                    \/ In c sentences)) cs.
Proof.
  intros Hrun. apply sentence_loop_result in Hrun as [st [Hrun ->]].
  set (P := fun c : str =>
              c <> [] /\ (len c <= Z.max max_chars overlap_chars
                          \/ In c sentences)).
  set (inv := fun st : sentence_state =>
                0 <= i st /\ Forall P (out st)
                /\ (current st = [] \/ P (current st))).
  assert (Hst : inv st).
  { refine (while_invariant cond body inv inv _ _ _ fuel _ st _ Hrun).
    - intros s s' (Hi & Hout & Hcur) Hc Hb.
      unfold sentence_cond in Hc. apply Z.ltb_lt in Hc.
      destruct (sentence_at (i s) ltac:(lia)) as [Hin Htidy].
      destruct (sentence_body_cases s s' Hb)
        as [(Hi' & Ho' & [[Hempty Hc']|(Hne & Hfit & Hc')])
           |(Hi' & Hne & Hbig & Ho' & Hc')].
      + repeat split; [lia|now rewrite Ho'|]. right. rewrite Hc'.
        split; [apply Htidy|now right].
      + repeat split; [lia|now rewrite Ho'|]. right. rewrite Hc'. split.
        * apply strip_nonspace. apply Exists_app. right.
          apply Exists_app. right. now apply tidy_nonspace.
        * left. pose proof (len_strip (current s ++ space
                              ++ nth (Z.to_nat (i s)) sentences [])) as Hle.
          rewrite !len_app in Hle. change (len space) with 1 in Hle. lia.
      + repeat split; [lia| |].
        * rewrite Ho'. apply Forall_app. split; [assumption|].
          constructor; [|constructor]. destruct Hcur; [congruence|assumption].
        * rewrite Hc'. destruct (Z.gtb_spec overlap_chars 0); [|now left].
          right. destruct (reseed_tail (current s) overlap_chars Hne)
            as [Hne' Hle']; [lia|]. split; [assumption|left; lia].
    - intros s s' _ _ Hb. destruct (sentence_body_continues s s' Hb).
    - intros s Hs _. exact Hs.
    - repeat split; [simpl; lia|constructor|now left]. }
  destruct Hst as (_ & Hout & Hcur).
  destruct (current st) as [|c cur] eqn:E; cbn [truthy]; [assumption|].
  apply Forall_app. split; [assumption|].
  constructor; [|constructor]. destruct Hcur; [discriminate|assumption].
Qed.

(** With at least one sentence the result has at least one chunk. *)
Lemma sentence_loop_nonempty (fuel : nat) (cs : list str) :
  sentences <> [] ->
  sentence_loop sentences max_chars overlap_chars fuel = Some cs ->
  cs <> [].
Proof.
  intros Hne Hrun. apply sentence_loop_result in Hrun as [st [Hrun ->]].
  set (inv := fun st : sentence_state =>
                0 <= i st
                /\ (1 <= i st -> out st <> [] \/ current st <> [])).
  assert (Hst : inv st /\ len sentences <= i st).
  { refine (while_invariant cond body inv
              (fun st => inv st /\ len sentences <= i st)
              _ _ _ fuel _ st _ Hrun).
    - intros s s' (Hi & Hsome) Hc Hb.
      unfold sentence_cond in Hc. apply Z.ltb_lt in Hc.
      destruct (sentence_at (i s) ltac:(lia)) as [Hin Htidy].
      destruct (sentence_body_cases s s' Hb)
        as [(Hi' & Ho' & [[Hempty Hc']|(Hne' & Hfit & Hc')])
           |(Hi' & Hne' & Hbig & Ho' & Hc')].
      + split; [lia|]. intros _. right. rewrite Hc'. apply Htidy.
      + split; [lia|]. intros _. right. rewrite Hc'.
        apply strip_nonspace. apply Exists_app. right.
        apply Exists_app. right. now apply tidy_nonspace.
      + split; [lia|]. intros _. left. rewrite Ho'.
        destruct (out s); discriminate.
    - intros s s' _ _ Hb. destruct (sentence_body_continues s s' Hb).
    - intros s Hs Hc. split; [assumption|].
      unfold sentence_cond in Hc. now apply Z.ltb_ge in Hc.
    - split; [simpl; lia|]. simpl. lia. }
  destruct Hst as [[Hi Hsome] Hend].
  assert (Hpos : 1 <= i st).
  { unfold len in Hend. destruct sentences; [congruence|simpl in Hend; lia]. }
  destruct (Hsome Hpos) as [Ho|Hc].
  - destruct (truthy (current st)); [|assumption].
    destruct (out st); [congruence|discriminate].
  - rewrite truthy_true by assumption. destruct (out st); discriminate.
Qed.
End SentenceSteps.

Lemma while_measure_under {St : Type} (cond : St -> bool)
    (body : St -> ctl St) (inv : St -> Prop) (measure : St -> nat) :
  (forall s s', inv s -> cond s = true -> body s = Continue s' ->
                inv s' /\ (measure s' < measure s)%nat) ->
  forall fuel s, inv s -> (measure s < fuel)%nat ->
                 exists r, while cond body fuel s = Some r.
Proof.
  intros Hdec. induction fuel as [|fuel IH]; intros s Hs Hm; [lia|].
  simpl. destruct (cond s) eqn:Hc; [|eauto].
  destruct (body s) as [s'|s'] eqn:Hb; [|eauto].
  destruct (Hdec s s' Hs Hc Hb) as [Hs' Hlt]. apply IH; [assumption|lia].
Qed.

Section SentenceProgress.
Variable sentences : list str.
Variables max_chars overlap_chars : Z.
Hypothesis sentences_tidy : Forall tidy sentences.

Local Abbreviation cond := (sentence_cond sentences).
Local Abbreviation body := (sentence_body sentences max_chars overlap_chars).

(** With an overlap, a sentence after the first that does not fit behind a
    buffer of one character is never taken: the loop is not left. *)
Lemma sentence_loop_blocked (k : nat) (s : str) :
  0 < overlap_chars -> (1 <= k)%nat ->
  nth_error sentences k = Some s -> max_chars < len s + 2 ->
  forall fuel,
    while cond body fuel {| i := 0; current := []; out := [] |} = None.
Proof.
  intros Hov Hk Hnth Hbig fuel.
  destruct (while cond body fuel _) as [r|] eqn:Hrun; [exfalso|reflexivity].
  assert (Hlt : (k < length sentences)%nat).
  { apply nth_error_Some. congruence. }
  set (inv := fun st : sentence_state =>
                0 <= i st <= Z.of_nat k /\ (1 <= i st -> current st <> [])).
  refine (while_invariant cond body inv (fun _ => False)
            _ _ _ fuel _ r _ Hrun).
  - intros st st' (Hi & Hcur) Hc Hb.
    unfold sentence_cond in Hc. apply Z.ltb_lt in Hc.
    destruct (sentence_at sentences sentences_tidy (i st) ltac:(lia))
      as [Hin Htidy].
    destruct (sentence_body_cases _ _ _ st st' Hb)
      as [(Hi' & Ho' & [[Hempty Hc']|(Hne & Hfit & Hc')])
         |(Hi' & Hne & Hbig' & Ho' & Hc')].
    + split.
      * assert (i st < 1) by (destruct (Z.lt_ge_cases (i st) 1);
                               [assumption|now destruct (Hcur ltac:(lia))]).
        lia.
      * intros _. rewrite Hc'. apply Htidy.
    + split.
      * assert (i st <> Z.of_nat k).
        { intros E. rewrite E, Nat2Z.id in Hfit.
          rewrite (nth_error_nth _ _ _ Hnth) in Hfit.
          assert (0 < len (current st)).
          { unfold len. destruct (current st); simpl; [congruence|lia]. }
          lia. }
        lia.
      * intros _. rewrite Hc'. apply strip_nonspace. apply Exists_app. right.
        apply Exists_app. right. now apply tidy_nonspace.
    + split; [lia|]. intros _. rewrite Hc'.
      destruct (Z.gtb_spec overlap_chars 0); [|lia].
      now apply reseed_tail.
  - intros st st' _ _ Hb. exact (sentence_body_continues _ _ _ st st' Hb).
  - intros st (Hi & _) Hc. unfold sentence_cond in Hc.
    apply Z.ltb_ge in Hc. unfold len in Hc. lia.
  - split; [simpl; lia|]. simpl. lia.
Qed.

(** When every sentence fits behind a reseeded buffer, an emission is
    followed by a take, and the loop is left within [2 * len sentences]
    iterations. *)
Lemma sentence_loop_total_when_fitting :
  0 <= overlap_chars ->
  Forall (fun s => overlap_chars + 1 + len s <= max_chars) sentences ->
  exists cs, forall fuel,
    (2 * length sentences + 1 < fuel)%nat ->
    sentence_loop sentences max_chars overlap_chars fuel = Some cs.
Proof.
  intros Hov Hfit.
  set (takes := fun st : sentence_state =>
                  (len (current st) + (if truthy (current st) then 1 else 0)
                   + len (nth (Z.to_nat (i st)) sentences []) <=? max_chars)
                  || negb (truthy (current st))).
  set (m := fun st : sentence_state =>
              (2 * Z.to_nat (len sentences - i st)
               + (if takes st then 0 else 1))%nat).
  destruct (while_measure_under cond body (fun st => 0 <= i st) m) with
    (fuel := S (S (2 * length sentences)))
    (s := {| i := 0; current := []; out := [] |}) as [r Hr].
  - intros st st' Hi Hc Hb. unfold sentence_cond in Hc. apply Z.ltb_lt in Hc.
    destruct (sentence_at sentences sentences_tidy (i st) ltac:(lia))
      as [Hin _].
    pose proof (proj1 (Forall_forall _ _) Hfit _ Hin) as Hs.
    cbv beta in Hs.
    assert (Htakes : takes st = true \/ takes st = false)
      by (destruct (takes st); auto).
    destruct (sentence_body_cases _ _ _ st st' Hb)
      as [(Hi' & Ho' & _)|(Hi' & Hne & Hbig & Ho' & Hc')].
    + split; [lia|]. unfold m. rewrite Hi'.
      destruct (takes st'), (takes st); lia.
    + split; [lia|]. unfold m.
      assert (Hno : takes st = false).
      { unfold takes. rewrite (truthy_true _ Hne). simpl negb.
        rewrite orb_false_r. apply Z.leb_gt. lia. }
      assert (Hyes : takes st' = true).
      { unfold takes. rewrite Hi', Hc'.
        destruct (Z.gtb_spec overlap_chars 0);
          [|cbn [truthy negb]; apply orb_true_r].
        destruct (reseed_tail (current st) overlap_chars Hne ltac:(lia))
          as [Hne' Hle'].
        rewrite (truthy_true _ Hne'). simpl negb. rewrite orb_false_r.
        apply Z.leb_le. lia. }
      rewrite Hno, Hyes, Hi'. lia.
  - simpl. lia.
  - unfold m. cbn [i]. unfold len. destruct (takes _); lia.
  - exists (if truthy (current r) then out r ++ [current r] else out r).
    intros fuel Hfuel. unfold sentence_loop.
    now rewrite (while_fuel_mono _ _ (S (S (2 * length sentences))) fuel _ r
                   ltac:(lia) Hr).
Qed.
End SentenceProgress.

(** ** The sentence loop without overlap: nothing lost, nothing repeated *)

Lemma join_same_snoc (a b : list str) (s : str) :
  Forall tidy a -> Forall tidy b -> join space a = join space b ->
  join space (a ++ [s]) = join space (b ++ [s]).
Proof.
  intros Ha Hb E. destruct a as [|x a], b as [|y b].
  - reflexivity.
  - exfalso. symmetry in E.
    now apply (proj1 (tidy_join (y :: b) ltac:(discriminate) Hb)).
  - exfalso. now apply (proj1 (tidy_join (x :: a) ltac:(discriminate) Ha)).
  - rewrite !join_snoc by discriminate. now rewrite E.
Qed.

Lemma join_extend_last (o : list str) (x s : str) :
  join space (o ++ [x ++ space ++ s]) = join space (o ++ [x]) ++ space ++ s.
Proof.
  destruct o as [|y o]; [reflexivity|].
  rewrite !join_snoc by discriminate. now rewrite <- !app_assoc.
Qed.

Lemma sentence_loop_no_overlap_join (sentences : list str) (max_chars : Z)
    (fuel : nat) (cs : list str) :
  Forall tidy sentences ->
  sentence_loop sentences max_chars 0 fuel = Some cs ->
  join space cs = join space sentences.
Proof.
  intros Htidy Hrun. apply sentence_loop_result in Hrun as [st [Hrun ->]].
  set (emitted := fun st : sentence_state =>
                    out st ++ (if truthy (current st) then [current st]
                               else [])).
  set (inv := fun st : sentence_state =>
                0 <= i st <= len sentences
                /\ Forall tidy (emitted st)
                /\ join space (emitted st)
                   = join space (firstn (Z.to_nat (i st)) sentences)).
  assert (Hst : inv st /\ len sentences <= i st).
  { refine (while_invariant (sentence_cond sentences)
              (sentence_body sentences max_chars 0) inv
              (fun st => inv st /\ len sentences <= i st)
              _ _ _ fuel _ st _ Hrun).
    - intros s s' (Hi & Hall & Hjoin) Hc Hb.
      unfold sentence_cond in Hc. apply Z.ltb_lt in Hc.
      destruct (sentence_at sentences Htidy (i s) ltac:(lia)) as [Hin Hts].
      assert (Hfirst : firstn (Z.to_nat (i s + 1)) sentences
                       = firstn (Z.to_nat (i s)) sentences
                         ++ [nth (Z.to_nat (i s)) sentences []]).
      { replace (Z.to_nat (i s + 1)) with (S (Z.to_nat (i s))) by lia.
        apply firstn_snoc_nth. unfold len in Hc. lia. }
      unfold inv, emitted in *.
      destruct (sentence_body_cases _ _ _ s s' Hb)
        as [(Hi' & Ho' & [[Hempty Hc']|(Hne & Hfit & Hc')])
           |(Hi' & Hne & Hbig & Ho' & Hc')].
      + rewrite Hempty in Hall, Hjoin. cbn [truthy] in Hall, Hjoin.
        rewrite app_nil_r in Hall, Hjoin.
        rewrite Hi', Ho', Hc', Hfirst.
        rewrite (truthy_true _ (proj1 Hts)).
        split; [lia|]. split.
        * apply Forall_app. split; [assumption|now constructor].
        * apply join_same_snoc; [assumption| |assumption].
          apply Forall_firstn, Htidy.
      + rewrite (truthy_true _ Hne) in Hall, Hjoin.
        assert (Hcur : tidy (current s)).
        { apply Forall_app in Hall as [_ H]. now inversion H. }
        assert (Hnew : tidy (current s ++ space
                             ++ nth (Z.to_nat (i s)) sentences []))
          by now apply tidy_app.
        rewrite Hi', Ho', Hc', Hfirst, (strip_tidy _ Hnew).
        rewrite (truthy_true _ (proj1 Hnew)).
        split; [lia|]. split.
        * apply Forall_app in Hall as [Ho _].
          apply Forall_app. split; [assumption|now constructor].
        * rewrite join_extend_last, Hjoin. symmetry. apply join_snoc.
          intros E. rewrite E in Hjoin. simpl join in Hjoin.
          apply (proj1 (tidy_join (out s ++ [current s])
                          ltac:(now destruct (out s)) Hall)).
          exact Hjoin.
      + rewrite (truthy_true _ Hne) in Hall, Hjoin.
        rewrite Hi', Ho', Hc'. change (0 >? 0) with false. cbn [truthy].
        rewrite app_nil_r. split; [lia|]. split; assumption.
    - intros s s' _ _ Hb. destruct (sentence_body_continues _ _ _ s s' Hb).
    - intros s Hs Hc. split; [assumption|].
      unfold sentence_cond in Hc. now apply Z.ltb_ge in Hc.
    - unfold inv, emitted. cbn [i current out truthy app].
      split; [pose proof (len_nonneg sentences); lia|].
      split; [constructor|reflexivity]. }
  destruct Hst as [(Hi & _ & Hjoin) Hend]. unfold emitted in Hjoin.
  rewrite firstn_all2 in Hjoin by (unfold len in *; lia).
  destruct (truthy (current st)); [assumption|].
  now rewrite app_nil_r in Hjoin.
Qed.

(** ** Texts of whitespace only *)

Lemma blank_or_nonspace (text : str) :
  blank text \/ Exists (fun c => isspace c = false) text.
Proof.
  induction text as [|c text [IH|IH]].
  - left. constructor.
  - destruct (isspace c) eqn:E.
    + left. now constructor.
    + right. now apply Exists_cons_hd.
  - right. now apply Exists_cons_tl.
Qed.

Lemma split_blank (text : str) : blank text -> split text = [].
Proof.
  unfold split. induction 1 as [|c text Hc _ IH]; [reflexivity|].
  cbn [split_words truthy]. now rewrite Hc.
Qed.

Lemma strip_blank (s : str) : blank s -> strip s = [].
Proof.
  intros H. unfold strip.
  assert (E : dropwhile isspace s = []).
  { induction H as [|c s Hc _ IH]; [reflexivity|]. simpl. now rewrite Hc. }
  now rewrite E.
Qed.

Lemma re_split_scan_blank (s : str) :
  forall st piece,
    blank piece -> blank s -> Forall blank (re_split_scan st piece s).
Proof.
  induction s as [|c s IH]; intros st piece Hp Hs; cbn [re_split_scan].
  - constructor; [|constructor]. now apply Forall_rev.
  - inversion Hs as [|? ? Hc Hs']; subst. rewrite Hc.
    destruct st as [[|]|].
    + constructor; [now apply Forall_rev|]. apply IH; [constructor|assumption].
    + apply IH; [now constructor|assumption].
    + now apply IH.
Qed.

Lemma split_sentences_blank (text : str) :
  blank text -> split_sentences text = [].
Proof.
  intros H. unfold split_sentences, _SENTENCE_SPLIT_RE_split.
  pose proof (re_split_scan_blank text (InPiece false) [] ltac:(constructor) H)
    as Hall.
  induction Hall as [|p l Hp _ IH]; [reflexivity|].
  simpl. now rewrite (strip_blank p Hp).
Qed.

(** ** [chunk_text_sentencewise]: what a caller can rely on *)

Lemma sentencewise_sound (text : str) (max_chars overlap_chars : Z)
    (cs : list str) :
  valid_args max_chars overlap_chars ->
  returns (chunk_text_sentencewise text max_chars overlap_chars) (Return cs) ->
  exists fuel,
    sentence_loop (split_sentences text) max_chars overlap_chars fuel
    = Some cs.
Proof.
  intros Hv [fuel Hrun]. exists fuel.
  rewrite sentencewise_valid in Hrun by assumption.
  destruct (sentence_loop _ _ _ fuel); [|discriminate].
  injection Hrun as <-. reflexivity.
Qed.

(** X8: with valid arguments, the token chunker without an encoder and
    the sentence chunker return the empty list exactly on the texts that
    hold nothing but whitespace. *)
Theorem blank_text_no_chunks (env : tiktoken_env) (name : string)
    (text : str) (max_size overlap : Z) :
  valid_args max_size overlap ->
  _try_get_tokenizer env name = None ->
  (returns (chunk_text_tokenwise env text max_size overlap name) (Return [])
   <-> blank text)
  /\ (returns (chunk_text_sentencewise text max_size overlap) (Return [])
      <-> blank text).
Proof.
  intros Hv Hres. pose proof Hv as [Hmax Hov]. split; split.
  - intros Hret.
    pose proof (tokenwise_sound env name text max_size overlap [] Hv Hres Hret)
      as Hcs.
    destruct (blank_or_nonspace text) as [Hb|Hns]; [assumption|exfalso].
    pose proof (split_words_nonempty text [] (or_intror Hns)) as Hne.
    fold (split text) in Hne.
    inversion Hcs as [s Hd| |]; subst.
    unfold len in Hd. destruct (split text); [congruence|simpl in Hd; lia].
  - intros Hb. exists 1%nat.
    rewrite tokenwise_valid, Hres, (split_blank text Hb) by assumption.
    reflexivity.
  - intros Hret.
    destruct (sentencewise_sound text max_size overlap [] Hv Hret)
      as [fuel Hrun].
    destruct (blank_or_nonspace text) as [Hb|Hns]; [assumption|exfalso].
    apply (sentence_loop_nonempty (split_sentences text) max_size overlap
             (split_sentences_tidy text) fuel []);
      [now apply split_sentences_nonempty|assumption|reflexivity].
  - intros Hb. exists 1%nat.
    rewrite sentencewise_valid, (split_sentences_blank text Hb) by assumption.
    reflexivity.
Qed.

Lemma blank_text_no_chunks_witness :
  (returns (chunk_text_tokenwise no_tiktoken [32; 9; 10; 160]%N 5 1 "gpt2")
           (Return [])
   <-> blank [32; 9; 10; 160]%N)
  /\ (returns (chunk_text_sentencewise [32; 9; 10; 160]%N 5 1) (Return [])
      <-> blank [32; 9; 10; 160]%N).
Proof.
  apply (blank_text_no_chunks no_tiktoken "gpt2" [32; 9; 10; 160]%N 5 1).
  - split; lia.
  - reflexivity.
Defined.

(** X9: whatever [chunk_text_sentencewise] returns, no chunk is empty,
    and a chunk longer than [max (max_chars, overlap_chars)] is one whole
    sentence of the text. *)
Theorem sentencewise_chunk_bound (text : str) (max_chars overlap_chars : Z)
    (cs : list str) :
  valid_args max_chars overlap_chars ->
  returns (chunk_text_sentencewise text max_chars overlap_chars) (Return cs) ->
  Forall (fun c => c <> [] /\
                   (len c <= Z.max max_chars overlap_chars
                    \/ In c (split_sentences text))) cs.
Proof.
  intros Hv Hret.
  destruct (sentencewise_sound text max_chars overlap_chars cs Hv Hret)
    as [fuel Hrun].
  exact (sentence_loop_chunks (split_sentences text) max_chars overlap_chars
           (split_sentences_tidy text) fuel cs Hrun).
Qed.

Lemma sentencewise_chunk_bound_witness :
  Forall (fun c => c <> [] /\
                   (len c <= Z.max 12 0
                    \/ In c (split_sentences
                               (lit "One. Two. Averylongsentence. Three."))))
         [lit "One. Two."; lit "Averylongsentence."; lit "Three."].
Proof.
  apply (sentencewise_chunk_bound (lit "One. Two. Averylongsentence. Three.")
           12 0).
  - split; lia.
  - exists 10%nat. vm_compute. reflexivity.
Defined.

(** X10: without overlap [chunk_text_sentencewise] returns, and its chunks
    joined by single spaces are the sentences of the text joined by single
    spaces: no sentence is lost, repeated or moved. *)
Theorem sentencewise_no_overlap_roundtrip (text : str) (max_chars : Z) :
  0 < max_chars ->
  exists cs,
    returns (chunk_text_sentencewise text max_chars 0) (Return cs)
    /\ join space cs = join space (split_sentences text).
Proof.
  intros Hmax.
  destruct (sentence_loop_no_overlap_total (split_sentences text) max_chars)
    as [cs Hcs].
  specialize (Hcs (S (S (2 * length (split_sentences text)))) ltac:(lia)).
  exists cs. split.
  - exists (S (S (2 * length (split_sentences text)))).
    rewrite sentencewise_valid by (split; lia). now rewrite Hcs.
  - exact (sentence_loop_no_overlap_join _ _ _ _ (split_sentences_tidy text)
             Hcs).
Qed.

Lemma sentencewise_no_overlap_roundtrip_witness :
  exists cs,
    returns (chunk_text_sentencewise
               (lit "One. Two. Averylongsentence. Three.") 12 0) (Return cs)
    /\ join space cs
       = join space (split_sentences
                       (lit "One. Two. Averylongsentence. Three.")).
Proof.
  apply (sentencewise_no_overlap_roundtrip
           (lit "One. Two. Averylongsentence. Three.") 12).
  lia.
Defined.

Lemma sentencewise_no_overlap_returns_witness :
  exists cs,
    returns (chunk_text_sentencewise
               (lit "One. Two. Averylongsentence. Three.") 12 0) (Return cs)
    /\ forall s,
         In s (split_sentences (lit "One. Two. Averylongsentence. Three.")) ->
         12 < len s -> In s cs.
Proof.
  apply (sentencewise_no_overlap_returns
           (lit "One. Two. Averylongsentence. Three.") 12).
  lia.
Defined.

Lemma sentencewise_single_sentence_witness :
  returns (chunk_text_sentencewise (lit "  Averylongsentencewithnospaces.  ")
             5 3)
          (Return [lit "Averylongsentencewithnospaces."]).
Proof.
  apply (sentencewise_single_sentence
           (lit "  Averylongsentencewithnospaces.  ")
           (lit "Averylongsentencewithnospaces.") 5 3).
  - split; lia.
  - vm_compute. reflexivity.
Defined.

(** X12: when every sentence [s] of the text has
    [overlap_chars + 1 + len s <= max_chars], [chunk_text_sentencewise]
    returns, and every chunk is between 1 and [max_chars] characters
    long. *)
Theorem sentencewise_returns_when_fitting (text : str)
    (max_chars overlap_chars : Z) :
  valid_args max_chars overlap_chars ->
  Forall (fun s => overlap_chars + 1 + len s <= max_chars)
         (split_sentences text) ->
  exists cs,
    returns (chunk_text_sentencewise text max_chars overlap_chars) (Return cs)
    /\ Forall (fun c => 0 < len c <= max_chars) cs.
Proof.
  intros Hv Hfit. pose proof Hv as [Hmax Hov].
  destruct (sentence_loop_total_when_fitting (split_sentences text)
              max_chars overlap_chars (split_sentences_tidy text) Hov Hfit)
    as [cs Hcs].
  specialize (Hcs (S (S (2 * length (split_sentences text)))) ltac:(lia)).
  exists cs. split.
  - exists (S (S (2 * length (split_sentences text)))).
    rewrite sentencewise_valid by assumption. now rewrite Hcs.
  - pose proof (sentence_loop_chunks (split_sentences text) max_chars
                  overlap_chars (split_sentences_tidy text) _ cs Hcs)
      as Hchunks.
    assert (Hoc : cs = [] \/ overlap_chars < max_chars).
    { clear Hchunks. revert Hcs Hfit.
      destruct (split_sentences text) as [|s0 rest]; intros Hcs Hfit.
      - left. simpl in Hcs. now injection Hcs as <-.
      - right. inversion Hfit as [|? ? Hs0 _]; subst.
        pose proof (len_nonneg s0). lia. }
    destruct Hoc as [->|Hoc]; [constructor|].
    apply Forall_impl with (2 := Hchunks).
    intros c [Hne Hc].
    assert (Hpos : 0 < len c).
    { unfold len. destruct c; simpl; [congruence|lia]. }
    split; [assumption|]. destruct Hc as [Hle|Hin]; [lia|].
    pose proof (proj1 (Forall_forall _ _) Hfit c Hin) as Hs.
    cbv beta in Hs. lia.
Qed.

Lemma sentencewise_returns_when_fitting_witness :
  exists cs,
    returns (chunk_text_sentencewise (lit "One. Two. Three. Four.") 12 4)
            (Return cs)
    /\ Forall (fun c => 0 < len c <= 12) cs.
Proof.
  apply (sentencewise_returns_when_fitting (lit "One. Two. Three. Four.") 12 4).
  - split; lia.
  - vm_compute. repeat constructor; discriminate.
Defined.

(** X13: with [overlap_chars > 0], a text with a sentence after the first
    that is at least [max_chars - 1] characters long makes
    [chunk_text_sentencewise] loop for ever, whatever comes before or after
    that sentence. *)
Theorem sentencewise_blocked_diverges (text : str)
    (max_chars overlap_chars : Z) (k : nat) (s : str) :
  valid_args max_chars overlap_chars -> 0 < overlap_chars ->
  (1 <= k)%nat -> nth_error (split_sentences text) k = Some s ->
  max_chars < len s + 2 ->
  diverges (chunk_text_sentencewise text max_chars overlap_chars).
Proof.
  intros Hv Hov Hk Hnth Hbig.
  apply sentencewise_diverges_from; [assumption|].
  exact (sentence_loop_blocked (split_sentences text) max_chars overlap_chars
           (split_sentences_tidy text) k s Hov Hk Hnth Hbig).
Qed.

Lemma sentencewise_blocked_diverges_witness :
  diverges (chunk_text_sentencewise (lit "One. Two. Three. Four.") 6 1).
Proof.
  apply (sentencewise_blocked_diverges (lit "One. Two. Three. Four.") 6 1
           2%nat (lit "Three.")).
  - split; lia.
  - lia.
  - lia.
  - vm_compute. reflexivity.
  - vm_compute. reflexivity.
Defined.

(** X15: without an encoder [chunk_text_tokenwise] sees only the words of
    the text: it returns the same on a text as on its words joined by single
    spaces. *)
Theorem tokenwise_fallback_normalised (env : tiktoken_env) (name : string)
    (text : str) (max_tokens overlap : Z) (fuel : nat) :
  _try_get_tokenizer env name = None ->
  chunk_text_tokenwise env text max_tokens overlap name fuel
  = chunk_text_tokenwise env (join space (split text)) max_tokens overlap
      name fuel.
Proof.
  intros Hres. unfold chunk_text_tokenwise. rewrite Hres.
  now rewrite (split_join (split text) (split_wordlike text)).
Qed.

Lemma tokenwise_fallback_normalised_witness :
  chunk_text_tokenwise no_tiktoken [32; 97; 9; 32; 98; 10; 99]%N 2 1 "gpt2" 5
  = chunk_text_tokenwise no_tiktoken
      (join space (split [32; 97; 9; 32; 98; 10; 99]%N)) 2 1 "gpt2" 5.
Proof.
  apply (tokenwise_fallback_normalised no_tiktoken "gpt2"
           [32; 97; 9; 32; 98; 10; 99]%N 2 1 5).
  reflexivity.
Defined.
